(** * Creditra backend: the credit-line registry

    A shallow embedding of [src/services/creditService.ts] and the
    verification of its lifecycle state machine.

    The TypeScript module keeps one process-wide [Map<string, CreditLine>]
    whose values are mutable objects.  [createCreditLine] allocates a new
    object and stores a reference to it; [suspendCreditLine] and
    [closeCreditLine] mutate the stored object in place and hand the very
    same reference back to the caller.  The embedding therefore keeps the
    object heap and the map apart: a [State] is a heap of [CreditLine]
    objects together with the ordered entries of [_store], and every
    function of the module is a computation in a small state-and-exception
    monad over [State]. *)

From Stdlib Require Import String Ascii QArith Lqa.
From stdpp Require Import base option list strings pretty.

Open Scope string_scope.
Open Scope list_scope.

(** ** Data model *)

(** [type CreditLineStatus = "active" | "suspended" | "closed"] *)
Module Status.
Inductive t : Set := active | suspended | closed.

Definition eqb (a b : t) : bool :=
  match a, b with
  | active, active | suspended, suspended | closed, closed => true
  | _, _ => false
  end.
End Status.

(** The [action] field of an event:
    ["created" | "suspended" | "closed"] *)
Module Action.
Inductive t : Set := created | suspended | closed.
End Action.

(** [interface CreditLineEvent]; [actor] is the optional field. *)
Record CreditLineEvent : Set := {
  action : Action.t;
  timestamp : string;
  actor : option string
}.

(** [interface CreditLine] *)
Record CreditLine : Set := {
  id : string;
  status : Status.t;
  createdAt : string;
  updatedAt : string;
  events : list CreditLineEvent
}.

(** The two exception classes of the module, with their public fields. *)
Inductive ServiceError : Set :=
| InvalidTransitionError (currentStatus : Status.t) (requestedAction : string)
| CreditLineNotFoundError (id : string).

(** ** The store *)

(** A reference to a [CreditLine] object: its index in the heap. *)
Abbreviation ref := nat (only parsing).

(** The entries of a JavaScript [Map<string, CreditLine>], in iteration
    order.  Values are references. *)
Definition JsMap : Set := list (string * ref).

Record State : Set := {
  heap : list CreditLine;
  _store : JsMap
}.

(** [new Map()] with nothing allocated yet. *)
Definition init : State := {| heap := []; _store := [] |}.

(** [Map.prototype.get] *)
Fixpoint Map_get (k : string) (m : JsMap) : option ref :=
  match m with
  | [] => None
  | (k', v) :: m' => if String.eqb k k' then Some v else Map_get k m'
  end.

(** [Map.prototype.set]: an existing key keeps its position and gets the
    new value; a new key goes to the end. *)
Fixpoint Map_set (k : string) (v : ref) (m : JsMap) : JsMap :=
  match m with
  | [] => [(k, v)]
  | (k', v') :: m' =>
      if String.eqb k k' then (k, v) :: m' else (k', v') :: Map_set k v m'
  end.

(** [Map.prototype.values], already collected by [Array.from]. *)
Definition Map_values (m : JsMap) : list ref := m.*2.

Definition Map_keys (m : JsMap) : list string := m.*1.

(** ** The monad: state plus exceptions *)

(** How a call ends.  [Throw] is a JavaScript exception.  [Fault] is the
    embedding's own: a reference that points outside the heap.  JavaScript
    has no such references, and [reachable_live] below shows that no
    state the module can get into has one. *)
Inductive outcome (A : Type) : Type :=
| Ok (a : A)
| Throw (e : ServiceError)
| Fault.
Arguments Ok {A} a.
Arguments Throw {A} e.
Arguments Fault {A}.

Definition M (A : Type) : Type := State → outcome A * State.

Definition ret {A} (a : A) : M A := λ s, (Ok a, s).

Definition bind {A B} (m : M A) (k : A → M B) : M B :=
  λ s, match m s with
       | (Ok a, s') => k a s'
       | (Throw e, s') => (Throw e, s')
       | (Fault, s') => (Fault, s')
       end.

Definition throw {A} (e : ServiceError) : M A := λ s, (Throw e, s).

Notation "'let*' x := m 'in' k" := (bind m (λ x, k))
  (at level 10, x name, m at level 100, k at level 200,
   format "'[v' 'let*'  x  :=  m  'in' '/' k ']'").
Notation "m >> k" := (bind m (λ _, k))
  (at level 100, k at level 200, right associativity,
   format "'[v' m  >> '/' k ']'").

(** Object allocation: the new object goes to the end of the heap. *)
Definition alloc (v : CreditLine) : M ref :=
  λ s, (Ok (length (heap s)),
        {| heap := heap s ++ [v]; _store := _store s |}).

(** Reading an object through a reference. *)
Definition deref (l : ref) : M CreditLine :=
  λ s, match heap s !! l with
       | Some v => (Ok v, s)
       | None => (Fault, s)
       end.

(** In-place mutation of the object behind a reference. *)
Definition mutate (l : ref) (f : CreditLine → CreditLine) : M unit :=
  λ s, (Ok tt, {| heap := alter f l (heap s); _store := _store s |}).

Definition store_get (k : string) : M (option ref) :=
  λ s, (Ok (Map_get k (_store s)), s).

Definition store_set (k : string) (l : ref) : M unit :=
  λ s, (Ok tt, {| heap := heap s; _store := Map_set k l (_store s) |}).

Definition store_values : M (list ref) :=
  λ s, (Ok (Map_values (_store s)), s).

Definition store_clear : M unit :=
  λ s, (Ok tt, {| heap := heap s; _store := [] |}).

(** Field assignments [line.status = v], [line.updatedAt = v] and
    [line.events.push(e)]. *)
Definition set_status (v : Status.t) (c : CreditLine) : CreditLine :=
  {| id := id c; status := v; createdAt := createdAt c;
     updatedAt := updatedAt c; events := events c |}.

Definition set_updatedAt (v : string) (c : CreditLine) : CreditLine :=
  {| id := id c; status := status c; createdAt := createdAt c;
     updatedAt := v; events := events c |}.

Definition push_event (e : CreditLineEvent) (c : CreditLine) : CreditLine :=
  {| id := id c; status := status c; createdAt := createdAt c;
     updatedAt := updatedAt c; events := events c ++ [e] |}.

(** ** The functions of [creditService.ts]

    [now()] reads the wall clock.  Every function below calls it at most
    once, so the string it returns in that call is the argument [ts]. *)

Definition _resetStore : M unit := store_clear.

(** [createCreditLine(id, status = "active")]; [None] is the omitted
    argument. *)
Definition createCreditLine (id : string) (status : option Status.t)
    (ts : string) : M ref :=
  let status := default Status.active status in
  let* line := alloc {| id := id; status := status;
                         createdAt := ts; updatedAt := ts;
                         events := [{| action := Action.created;
                                       timestamp := ts; actor := None |}] |} in
  store_set id line >>
  ret line.

Definition getCreditLine (id : string) : M (option ref) :=
  store_get id.

Definition listCreditLines : M (list ref) :=
  store_values.

Definition suspendCreditLine (id : string) (ts : string) : M ref :=
  let* found := store_get id in
  match found with
  | None => throw (CreditLineNotFoundError id)
  | Some line =>
      let* cur := deref line in
      if negb (Status.eqb (status cur) Status.active) then
        throw (InvalidTransitionError (status cur) "suspend")
      else
        mutate line (set_status Status.suspended) >>
        mutate line (set_updatedAt ts) >>
        mutate line (push_event {| action := Action.suspended;
                                   timestamp := ts; actor := None |}) >>
        ret line
  end.

Definition closeCreditLine (id : string) (ts : string) : M ref :=
  let* found := store_get id in
  match found with
  | None => throw (CreditLineNotFoundError id)
  | Some line =>
      let* cur := deref line in
      if Status.eqb (status cur) Status.closed then
        throw (InvalidTransitionError (status cur) "close")
      else
        mutate line (set_status Status.closed) >>
        mutate line (set_updatedAt ts) >>
        mutate line (push_event {| action := Action.closed;
                                   timestamp := ts; actor := None |}) >>
        ret line
  end.

(** ** Runs of the module *)

(** One call of a mutating export, with the clock reading it gets. *)
Inductive op : Set :=
| Create (id : string) (status : option Status.t) (ts : string)
| Suspend (id : string) (ts : string)
| Close (id : string) (ts : string).

Definition exec (o : op) : M ref :=
  match o with
  | Create id status ts => createCreditLine id status ts
  | Suspend id ts => suspendCreditLine id ts
  | Close id ts => closeCreditLine id ts
  end.

(** The state a call leaves behind, whether it returned or threw. *)
Definition step (o : op) (s : State) : State := (exec o s).2.

Definition run (ops : list op) (s : State) : State :=
  foldl (λ s o, step o s) s ops.

(** The states the module can be in: those some sequence of calls builds
    from the empty store. *)
Inductive reachable : State → Prop :=
| reachable_init : reachable init
| reachable_step o s : reachable s → reachable (step o s).

(** The record stored under a key, looked up through the heap. *)
Definition line_of (k : string) (s : State) : option CreditLine :=
  l ← Map_get k (_store s); heap s !! l.

(** ** Definitions used in the statements *)

(** The record [createCreditLine] builds. *)
Definition fresh_line (id : string) (status : option Status.t) (ts : string)
    : CreditLine :=
  {| id := id; status := default Status.active status;
     createdAt := ts; updatedAt := ts;
     events := [{| action := Action.created; timestamp := ts; actor := None |}] |}.

(** The three assignments of a successful transition, taken together. *)
Definition transition (st : Status.t) (a : Action.t) (ts : string)
    (c : CreditLine) : CreditLine :=
  {| id := id c; status := st; createdAt := createdAt c; updatedAt := ts;
     events := events c ++ [{| action := a; timestamp := ts; actor := None |}] |}.

Definition with_heap (h : list CreditLine) (s : State) : State :=
  {| heap := h; _store := _store s |}.

(** Every call either leaves the state as it was, or allocates one
    record and binds a key to it, or rewrites one live record along an
    edge of the transition table. *)
Inductive effect (s : State) : op → outcome ref → State → Prop :=
| effect_create id st ts :
    effect s (Create id st ts) (Ok (length (heap s)))
      {| heap := heap s ++ [fresh_line id st ts];
         _store := Map_set id (length (heap s)) (_store s) |}
| effect_throw o e :
    (∀ id st ts, o ≠ Create id st ts) → effect s o (Throw e) s
| effect_fault o k l :
    Map_get k (_store s) = Some l → heap s !! l = None → effect s o Fault s
| effect_suspend id ts l r :
    Map_get id (_store s) = Some l → heap s !! l = Some r →
    status r = Status.active →
    effect s (Suspend id ts) (Ok l)
      (with_heap (alter (transition Status.suspended Action.suspended ts)
                    l (heap s)) s)
| effect_close id ts l r :
    Map_get id (_store s) = Some l → heap s !! l = Some r →
    status r ≠ Status.closed →
    effect s (Close id ts) (Ok l)
      (with_heap (alter (transition Status.closed Action.closed ts)
                    l (heap s)) s).

(** What holds of every record the module ever builds: the event log
    starts with the creation event, whose time is [createdAt], and ends
    with the event whose time is [updatedAt]. *)
Record line_ok (c : CreditLine) : Prop := {
  ok_first : action <$> head (events c) = Some Action.created;
  ok_created : timestamp <$> head (events c) = Some (createdAt c);
  ok_updated : timestamp <$> last (events c) = Some (updatedAt c)
}.

(** What holds of every state the module gets into: references in the
    map are live, no key occurs twice, no two keys share an object, a
    record sits under its own id, and every record is [line_ok]. *)
Record wf (s : State) : Prop := {
  wf_live : Forall (λ l, l < length (heap s)) (Map_values (_store s));
  wf_keys : NoDup (Map_keys (_store s));
  wf_refs : NoDup (Map_values (_store s));
  wf_ids : ∀ k l r, Map_get k (_store s) = Some l → heap s !! l = Some r → id r = k;
  wf_lines : Forall line_ok (heap s)
}.

(** A store with one active line ["x"], and the same after a suspend. *)
Definition one_active : State := run [Create "x" None "t0"] init.
Definition one_suspended : State :=
  run [Create "x" None "t0"; Suspend "x" "t1"] init.
Definition one_closed : State :=
  run [Create "x" None "t0"; Close "x" "t1"] init.

(** The edges of the transition table:
    active to suspended, active to closed, suspended to closed. *)
Definition status_edge (a b : Status.t) : bool :=
  match a, b with
  | Status.active, Status.suspended
  | Status.active, Status.closed
  | Status.suspended, Status.closed => true
  | _, _ => false
  end.

Definition is_transition (o : op) : bool :=
  match o with
  | Create _ _ _ => false
  | Suspend _ _ | Close _ _ => true
  end.

(** A sequence of [createCreditLine] calls, run in order; the result is
    the list of the references the calls returned. *)
Definition create_call : Set := string * option Status.t * string.

Fixpoint create_all (cs : list create_call) : M (list ref) :=
  match cs with
  | [] => ret []
  | (id, st, ts) :: cs =>
      let* line := createCreditLine id st ts in
      let* lines := create_all cs in
      ret (line :: lines)
  end.

Definition call_id (c : create_call) : string := c.1.1.

(** The records of [created] that the map still holds, in the order
    they were created. *)
Definition still_present (s : State) (created : list ref) : list ref :=
  filter (λ l, l ∈ Map_values (_store s)) created.

(** The listing order as claim C7 words it: after the calls [cs] on
    the empty store, [listCreditLines] returns the records still present
    in the order of their creation. *)
Definition lists_in_creation_order (cs : list create_call) : Prop :=
  ∀ created s,
    create_all cs init = (Ok created, s) →
    listCreditLines s = (Ok (still_present s created), s).

(** The ids of a sequence of calls in the order of their first
    occurrence, on top of the keys [seen] so far. *)
Definition first_occurrences (seen : list string) (ids : list string)
    : list string :=
  foldl (λ seen k, if bool_decide (k ∈ seen) then seen else seen ++ [k])
        seen ids.

(** Two calls issued together.  A call of this module is a synchronous
    function without an [await] in it, and the Node.js event loop runs
    such a call to its end before it starts another one; so two calls
    issued together run as two whole calls, in one order or the other.
    [first_a] picks the order. *)
Definition both {A} (first_a : bool) (a b : M A)
    : State → outcome A * outcome A * State :=
  λ s, if first_a then
         let '(ra, s1) := a s in
         let '(rb, s2) := b s1 in (ra, rb, s2)
       else
         let '(rb, s1) := b s in
         let '(ra, s2) := a s1 in (ra, rb, s2).

(** ** The rest of the registry's surface

    The error classes build their [message] in the constructor; the
    routes of [routes/credit.ts] send it to the client. *)

(** One double quote, as a string. *)
Definition dq : string := String "034" EmptyString.

(** A [CreditLineStatus] as the string it is at run time. *)
Definition status_text (st : Status.t) : string :=
  match st with
  | Status.active => "active"
  | Status.suspended => "suspended"
  | Status.closed => "closed"
  end.

(** [err.message], as the two constructors pass it to [super]. *)
Definition error_message (e : ServiceError) : string :=
  match e with
  | InvalidTransitionError currentStatus requestedAction =>
      ("Cannot " +:+ dq +:+ requestedAction +:+ dq
       +:+ " a credit line that is already "
       +:+ dq +:+ status_text currentStatus +:+ dq +:+ ".")
  | CreditLineNotFoundError id =>
      ("Credit line " +:+ dq +:+ id +:+ dq +:+ " not found.")
  end.

(** ** [services/riskService.ts] *)

(** The regular expressions the module needs: a literal character, a
    character class given by its ranges, a sequence, and [r{n}]. *)
Inductive regex : Set :=
| Char (c : ascii)
| Class (ranges : list (ascii * ascii))
| Seq (r1 r2 : regex)
| Times (r : regex) (n : nat).

Definition in_range (c : ascii) (range : ascii * ascii) : bool :=
  Nat.leb (nat_of_ascii range.1) (nat_of_ascii c)
  && Nat.leb (nat_of_ascii c) (nat_of_ascii range.2).

Definition in_class (ranges : list (ascii * ascii)) (c : ascii) : bool :=
  existsb (in_range c) ranges.

(** Matching a prefix of the input; the result is what is left of it.
    None of these expressions has a choice in it, so there is nothing to
    backtrack over. *)
Fixpoint rmatch (r : regex) (s : list ascii) : option (list ascii) :=
  match r with
  | Char c =>
      match s with
      | x :: s' => if Ascii.eqb x c then Some s' else None
      | [] => None
      end
  | Class ranges =>
      match s with
      | x :: s' => if in_class ranges x then Some s' else None
      | [] => None
      end
  | Seq r1 r2 =>
      match rmatch r1 s with
      | Some s' => rmatch r2 s'
      | None => None
      end
  | Times r n =>
      (fix go (n : nat) (s : list ascii) : option (list ascii) :=
         match n with
         | 0 => Some s
         | S n' =>
             match rmatch r s with
             | Some s' => go n' s'
             | None => None
             end
         end) n s
  end.

(** [/^r$/.test(s)] *)
Definition regex_test (r : regex) (s : string) : bool :=
  match rmatch r (list_ascii_of_string s) with
  | Some [] => true
  | _ => false
  end.

(** [/^G[A-Z2-7]{55}$/] *)
Definition wallet_regex : regex :=
  Seq (Char "G") (Times (Class [("A", "Z"); ("2", "7")]%char) 55).

Definition isValidWalletAddress (address : string) : bool :=
  regex_test wallet_regex address.

(** [type RiskLevel = "low" | "medium" | "high"] *)
Inductive RiskLevel : Set := low | medium | high.

(** A JavaScript [number] as far as [<] can tell: not-a-number, an
    infinity, or a finite value, which is a rational. *)
Inductive number : Set :=
| NaN
| Infinity (negative : bool)
| Finite (q : Q).

(** [a < b] on numbers. *)
Definition js_lt (a b : number) : bool :=
  match a, b with
  | NaN, _ | _, NaN => false
  | Infinity true, Infinity true => false
  | Infinity true, _ => true
  | _, Infinity true => false
  | Infinity false, _ => false
  | Finite _, Infinity false => true
  | Finite x, Finite y => negb (Qle_bool y x)
  end.

Definition of_int (z : Z) : number := Finite (inject_Z z).

Definition scoreToRiskLevel (score : number) : RiskLevel :=
  if js_lt score (of_int 40) then low
  else if js_lt score (of_int 70) then medium
  else high.

(** [interface RiskEvaluationResult]; [None] is [null]. *)
Record RiskEvaluationResult : Set := {
  walletAddress : string;
  score : option number;
  riskLevel : option RiskLevel;
  message : string;
  evaluatedAt : string
}.

(** [evaluateWallet]: the promise it returns is rejected with an
    [Error] carrying a message ([inl]) or fulfilled with a result
    ([inr]).  [ts] is the clock reading of the call. *)
Definition evaluateWallet (walletAddress : string) (ts : string)
    : string + RiskEvaluationResult :=
  if negb (isValidWalletAddress walletAddress) then
    inl ("Invalid wallet address: " +:+ dq +:+ walletAddress +:+ dq +:+ ". "
         +:+ "Must start with 'G' and be 56 alphanumeric characters.")
  else
    inr {| walletAddress := walletAddress;
           score := None;
           riskLevel := None;
           message := "Risk evaluation placeholder â€” engine not yet integrated.";
           evaluatedAt := ts |}.

(** ** [middleware/adminAuth.ts] and the routes *)

(** What a handler sends: the body given to [res.json], and the status
    code, 200 unless [res.status] set another. *)
Inductive Body : Set :=
| ErrorBody (error : string)
| LinesBody (data : list CreditLine)
| LineBody (data : CreditLine) (message : option string)
| RiskBody (result : RiskEvaluationResult).

Record Response : Set := {
  code : nat;
  body : Body
}.

(** A request header as Node hands it over:
    [string | string[] | undefined]. *)
Inductive header_value : Set :=
| HeaderAbsent
| HeaderString (v : string)
| HeaderList (vs : list string).

(** [!v] for a [string | undefined]. *)
Definition not_string (v : option string) : bool :=
  match v with
  | None | Some EmptyString => true
  | Some _ => false
  end.

(** [!v] for a header: an array is an object, so never falsy. *)
Definition not_header (v : header_value) : bool :=
  match v with
  | HeaderAbsent | HeaderString EmptyString => true
  | HeaderString _ | HeaderList _ => false
  end.

(** [v !== k] for a header and a string. *)
Definition header_differs (v : header_value) (k : string) : bool :=
  match v with
  | HeaderString s => negb (String.eqb s k)
  | HeaderAbsent | HeaderList _ => true
  end.

(** [adminAuth]: [expectedKey] is [process.env["ADMIN_API_KEY"]],
    [providedKey] is the request's [x-admin-api-key] header.  [Some r]
    is the response it sends itself; [None] is the call of [next()]. *)
Definition adminAuth (expectedKey : option string)
    (providedKey : header_value) : option Response :=
  if not_string expectedKey then
    Some {| code := 503;
            body := ErrorBody
              "Admin authentication is not configured on this server." |}
  else
    if not_header providedKey
       || header_differs providedKey (default EmptyString expectedKey)
    then
      Some {| code := 401;
              body := ErrorBody
                "Unauthorized: valid X-Admin-Api-Key header is required." |}
    else None.

(** What a [catch (err)] can get hold of: one of the two service
    errors, some other [Error], or a value that is no [Error] at all. *)
Inductive thrown : Set :=
| ThrownService (e : ServiceError)
| ThrownError (message : string)
| ThrownValue.

Definition handleServiceError (err : thrown) : Response :=
  match err with
  | ThrownService (CreditLineNotFoundError id) =>
      {| code := 404;
         body := ErrorBody (error_message (CreditLineNotFoundError id)) |}
  | ThrownService (InvalidTransitionError cur act) =>
      {| code := 409;
         body := ErrorBody (error_message (InvalidTransitionError cur act)) |}
  | ThrownError message => {| code := 500; body := ErrorBody message |}
  | ThrownValue => {| code := 500; body := ErrorBody "Internal server error" |}
  end.

(** [try { ... } catch (err) { ... }] *)
Definition try_catch {A} (m : M A) (handler : ServiceError → M A) : M A :=
  λ s, match m s with
       | (Throw e, s') => handler e s'
       | other => other
       end.

(** [JSON.stringify] of an array of lines reads every one of them. *)
Fixpoint deref_all (ls : list ref) : M (list CreditLine) :=
  match ls with
  | [] => ret []
  | l :: ls =>
      let* v := deref l in
      let* vs := deref_all ls in
      ret (v :: vs)
  end.

(** [GET /lines] *)
Definition get_lines : M Response :=
  let* lines := listCreditLines in
  let* data := deref_all lines in
  ret {| code := 200; body := LinesBody data |}.

(** [GET /lines/:id] *)
Definition get_line (id : string) : M Response :=
  let* line := getCreditLine id in
  match line with
  | None =>
      ret {| code := 404;
             body := ErrorBody ("Credit line " +:+ dq +:+ id +:+ dq
                                +:+ " not found.") |}
  | Some line =>
      let* data := deref line in
      ret {| code := 200; body := LineBody data None |}
  end.

(** The handler of [POST /lines/:id/suspend], after the middleware. *)
Definition post_suspend (id : string) (ts : string) : M Response :=
  try_catch
    (let* line := suspendCreditLine id ts in
     let* data := deref line in
     ret {| code := 200;
            body := LineBody data (Some "Credit line suspended.") |})
    (λ err, ret (handleServiceError (ThrownService err))).

(** The handler of [POST /lines/:id/close], after the middleware. *)
Definition post_close (id : string) (ts : string) : M Response :=
  try_catch
    (let* line := closeCreditLine id ts in
     let* data := deref line in
     ret {| code := 200;
            body := LineBody data (Some "Credit line closed.") |})
    (λ err, ret (handleServiceError (ThrownService err))).

(** [router.post(path, adminAuth, handler)]: the handler runs only when
    the middleware called [next()]. *)
Definition guarded (expectedKey : option string) (providedKey : header_value)
    (handler : M Response) : M Response :=
  match adminAuth expectedKey providedKey with
  | Some response => ret response
  | None => handler
  end.

Definition suspend_route (expectedKey : option string)
    (providedKey : header_value) (id ts : string) : M Response :=
  guarded expectedKey providedKey (post_suspend id ts).

Definition close_route (expectedKey : option string)
    (providedKey : header_value) (id ts : string) : M Response :=
  guarded expectedKey providedKey (post_close id ts).

(** [POST /evaluate]; [walletAddress] is the field of the request body,
    [None] when it is not there. *)
Definition evaluate_route (walletAddress : option string) (ts : string)
    : Response :=
  if not_string walletAddress then
    {| code := 400; body := ErrorBody "walletAddress is required" |}
  else
    match evaluateWallet (default EmptyString walletAddress) ts with
    | inr result => {| code := 200; body := RiskBody result |}
    | inl message => {| code := 400; body := ErrorBody message |}
    end.

(** ** [db/migrations.ts] *)

(** [filename.endsWith(suffix)] *)
Definition endsWith (filename suffix : string) : bool :=
  let f := list_ascii_of_string filename in
  let x := list_ascii_of_string suffix in
  bool_decide (drop (length f - length x) f = x).

(** [filename.slice(0, -n)] for a string of at least [n] characters. *)
Definition slice_off (filename : string) (n : nat) : string :=
  let f := list_ascii_of_string filename in
  string_of_list_ascii (take (length f - n) f).

Definition versionFromFilename (filename : string) : string :=
  if negb (endsWith filename ".sql") then filename
  else slice_off filename 4.

(** A record keeps only the event history the two transitions can
    build: the creation, then at most one suspension, then at most one
    closing, with the status the last of them set. *)
Definition history_ok (c : CreditLine) : Prop :=
  match action <$> events c with
  | [Action.created] => True
  | [Action.created; Action.suspended] => status c = Status.suspended
  | [Action.created; Action.closed]
  | [Action.created; Action.suspended; Action.closed] =>
      status c = Status.closed
  | _ => False
  end.

(** The states reachable when [_resetStore] is called as well. *)
Inductive reachable_with_reset : State → Prop :=
| rr_init : reachable_with_reset init
| rr_step o s : reachable_with_reset s → reachable_with_reset (step o s)
| rr_reset s : reachable_with_reset s → reachable_with_reset (_resetStore s).2.

(** The key a call is about. *)
Definition op_key (o : op) : string :=
  match o with
  | Create id _ _ | Suspend id _ | Close id _ => id
  end.

(** What a suspend or close call does to the record it finds. *)
Definition apply_transition (o : op) (c : CreditLine) : CreditLine :=
  match o with
  | Create _ _ _ => c
  | Suspend _ ts =>
      if Status.eqb (status c) Status.active
      then transition Status.suspended Action.suspended ts c else c
  | Close _ ts =>
      if Status.eqb (status c) Status.closed
      then c else transition Status.closed Action.closed ts c
  end.

(** The levels in their order: low, medium, high. *)
Definition level_rank (l : RiskLevel) : nat :=
  match l with
  | low => 0
  | medium => 1
  | high => 2
  end.

(** An upper-case letter or one of the digits 2 to 7. *)
Definition base32_char (c : ascii) : Prop :=
  (65 ≤ nat_of_ascii c ≤ 90)%nat ∨ (50 ≤ nat_of_ascii c ≤ 55)%nat.

(** ** [db/validate-schema.ts] *)

(** [EXPECTED_TABLES] of [db/migrations.ts] *)
Definition EXPECTED_TABLES : list string :=
  ["borrowers"; "credit_lines"; "risk_evaluations"; "transactions"; "events"].

(** [parts.join(sep)] *)
Fixpoint join (sep : string) (parts : list string) : string :=
  match parts with
  | [] => EmptyString
  | [p] => p
  | p :: rest => p +:+ sep +:+ join sep rest
  end.

(** The one thing these functions ask of a [DbClient]: [query(text,
    values)], whose promise is rejected with an error ([inl]) or
    fulfilled with rows; of a row only its [table_name] is read. *)
Definition DbQuery : Type := string → list string → string + list string.

(** [tables.map((_, i) => "$" + (i + 1)).join(", ")] *)
Definition placeholders (tables : list string) : string :=
  join ", " (imap (λ i _, "$" +:+ pretty (i + 1)) tables).

(** The text of the query [missingTables] sends. *)
Definition tables_query (tables : list string) : string :=
  "SELECT table_name FROM information_schema.tables
     WHERE table_schema = 'public' AND table_name IN ("
  +:+ placeholders tables +:+ ")".

(** [missingTables(client, tables = EXPECTED_TABLES)]; [None] is the
    omitted argument. *)
Definition missingTables (query : DbQuery) (tables : option (list string))
    : string + list string :=
  let tables := default EXPECTED_TABLES tables in
  match query (tables_query tables) tables with
  | inl err => inl err
  | inr found =>
      inr (filter (λ t, t ∉ found) tables)
  end.

(** [validateSchema(client)]: rejected ([inl]) or fulfilled. *)
Definition validateSchema (query : DbQuery) : string + unit :=
  match missingTables query None with
  | inl err => inl err
  | inr missing =>
      if Nat.ltb 0 (length missing) then
        inl ("Missing tables: " +:+ join ", " missing)
      else inr tt
  end.

(** * Verification *)

Lemma Status_eqb_spec (a b : Status.t) : reflect (a = b) (Status.eqb a b).
Proof. destruct a, b; simpl; constructor; congruence. Qed.

(** ** The map primitives *)

Section JsMapFacts.
Implicit Types (k : string) (v : ref) (m : JsMap).

Lemma Map_get_set_eq k v m : Map_get k (Map_set k v m) = Some v.
Proof.
  induction m as [|[k' v'] m IH]; csimpl.
  - by rewrite String.eqb_refl.
  - destruct (String.eqb k k') eqn:E; csimpl; by rewrite ?E, ?String.eqb_refl.
Qed.

Lemma Map_get_set_ne k k' v m :
  k ≠ k' → Map_get k' (Map_set k v m) = Map_get k' m.
Proof.
  intros Hne.
  assert (String.eqb k' k = false) as Hb by (apply String.eqb_neq; congruence).
  induction m as [|[k0 v0] m IH]; csimpl.
  - by rewrite Hb.
  - destruct (String.eqb k k0) eqn:E; csimpl.
    + apply String.eqb_eq in E as <-. by rewrite Hb.
    + by rewrite IH.
Qed.

Lemma Map_get_Some_elem k v m : Map_get k m = Some v → (k, v) ∈ m.
Proof.
  induction m as [|[k' v'] m IH]; csimpl; [done|].
  destruct (String.eqb k k') eqn:E.
  - apply String.eqb_eq in E as <-. intros [= ->]. left.
  - intros H. right. by apply IH.
Qed.

Lemma Map_get_None_keys k m : Map_get k m = None ↔ k ∉ Map_keys m.
Proof.
  unfold Map_keys. induction m as [|[k' v'] m IH]; csimpl.
  - split; [intros _; apply not_elem_of_nil | done].
  - rewrite not_elem_of_cons. destruct (String.eqb k k') eqn:E.
    + apply String.eqb_eq in E. split; [done | tauto].
    + apply String.eqb_neq in E. rewrite IH. tauto.
Qed.

Lemma Map_get_elem k v m : NoDup (Map_keys m) → (k, v) ∈ m → Map_get k m = Some v.
Proof.
  unfold Map_keys. induction m as [|[k' v'] m IH]; csimpl.
  - intros _ H. by apply elem_of_nil in H.
  - rewrite NoDup_cons. intros [Hk Hnd] [[= -> ->]|Hin]%elem_of_cons.
    + by rewrite String.eqb_refl.
    + destruct (String.eqb k k') eqn:E; [|by apply IH].
      apply String.eqb_eq in E as ->. exfalso. apply Hk.
      apply list_elem_of_fmap. by exists (k', v).
Qed.

(** [set] on a key already present leaves the key order alone; a new
    key goes last. *)
Lemma Map_keys_set k v m :
  Map_keys (Map_set k v m) =
    match Map_get k m with
    | Some _ => Map_keys m
    | None => Map_keys m ++ [k]
    end.
Proof.
  unfold Map_keys. induction m as [|[k' v'] m IH]; csimpl; [done|].
  destruct (String.eqb k k') eqn:E; csimpl.
  - by apply String.eqb_eq in E as ->.
  - rewrite IH. by destruct (Map_get k m).
Qed.

Lemma Map_values_set_fresh k v m :
  Map_get k m = None → Map_values (Map_set k v m) = Map_values m ++ [v].
Proof.
  unfold Map_values. induction m as [|[k' v'] m IH]; csimpl; [done|].
  destruct (String.eqb k k'); [done|]. intros H. csimpl. by rewrite IH.
Qed.

Lemma Map_values_set_elem k v v' m :
  v' ∈ Map_values (Map_set k v m) → v' = v ∨ v' ∈ Map_values m.
Proof.
  unfold Map_values. induction m as [|[k0 v0] m IH]; csimpl.
  - intros [->|H]%elem_of_cons; [by left | by right].
  - destruct (String.eqb k k0); csimpl; rewrite !elem_of_cons.
    + intros [->|H]; [by left | right; by right].
    + intros [->|H]; [right; by left |].
      destruct (IH H); [by left | right; by right].
Qed.

(** The value the key had before is gone from the map once no other
    key holds it. *)
Lemma Map_values_set_drop k v v0 m :
  NoDup (Map_values m) → Map_get k m = Some v0 → v ≠ v0 →
  v0 ∉ Map_values (Map_set k v m).
Proof.
  unfold Map_values. induction m as [|[k' v'] m IH]; csimpl; [done|].
  rewrite NoDup_cons. intros [Hv Hnd].
  destruct (String.eqb k k') eqn:E; csimpl; rewrite not_elem_of_cons.
  - intros [= ->]. split; [done | exact Hv].
  - intros Hg Hne. split; [|by apply IH].
    intros ->. apply Hv. apply Map_get_Some_elem in Hg.
    apply list_elem_of_fmap. by exists (k, v').
Qed.

Lemma Map_keys_set_NoDup k v m :
  NoDup (Map_keys m) → NoDup (Map_keys (Map_set k v m)).
Proof.
  intros Hnd. rewrite Map_keys_set.
  destruct (Map_get k m) eqn:E; [done|].
  apply NoDup_app. split_and!; [done | | apply NoDup_singleton].
  intros x Hx ->%list_elem_of_singleton. by apply Map_get_None_keys in E.
Qed.

Lemma Map_values_set_NoDup k v m :
  v ∉ Map_values m → NoDup (Map_values m) →
  NoDup (Map_values (Map_set k v m)).
Proof.
  unfold Map_values. induction m as [|[k' v'] m IH]; csimpl.
  - intros _ _. apply NoDup_singleton.
  - rewrite not_elem_of_cons, NoDup_cons. intros [Hne Hv] [Hv' Hnd].
    destruct (String.eqb k k'); csimpl; rewrite NoDup_cons.
    + done.
    + split; [|by apply IH]. intros [->|H]%Map_values_set_elem; done.
Qed.
End JsMapFacts.

(** ** What each call does to the state *)

Lemma with_heap_same s : with_heap (heap s) s = s.
Proof. by destruct s. Qed.

Lemma mutate_thrice (l : ref) st a ts (h : list CreditLine) :
  alter (push_event {| action := a; timestamp := ts; actor := None |}) l
    (alter (set_updatedAt ts) l (alter (set_status st) l h))
  = alter (transition st a ts) l h.
Proof. rewrite !list_alter_alter_eq. by apply list_alter_ext. Qed.

Lemma create_effect id st ts s :
  createCreditLine id st ts s =
    (Ok (length (heap s)),
     {| heap := heap s ++ [fresh_line id st ts];
        _store := Map_set id (length (heap s)) (_store s) |}).
Proof. reflexivity. Qed.

Section TransitionEffects.
Variables (id ts : string) (s : State).

Lemma suspend_absent :
  Map_get id (_store s) = None →
  suspendCreditLine id ts s = (Throw (CreditLineNotFoundError id), s).
Proof. intros H. unfold suspendCreditLine, bind, store_get. by rewrite H. Qed.

Lemma close_absent :
  Map_get id (_store s) = None →
  closeCreditLine id ts s = (Throw (CreditLineNotFoundError id), s).
Proof. intros H. unfold closeCreditLine, bind, store_get. by rewrite H. Qed.

Variable l : ref.
Hypothesis Hget : Map_get id (_store s) = Some l.

Lemma suspend_dangling :
  heap s !! l = None → suspendCreditLine id ts s = (Fault, s).
Proof.
  intros H. unfold suspendCreditLine, bind, store_get, deref.
  by rewrite Hget, H.
Qed.

Lemma close_dangling :
  heap s !! l = None → closeCreditLine id ts s = (Fault, s).
Proof.
  intros H. unfold closeCreditLine, bind, store_get, deref.
  by rewrite Hget, H.
Qed.

Variable r : CreditLine.
Hypothesis Hline : heap s !! l = Some r.

Lemma suspend_rejected :
  status r ≠ Status.active →
  suspendCreditLine id ts s =
    (Throw (InvalidTransitionError (status r) "suspend"), s).
Proof.
  intros H. unfold suspendCreditLine, bind, store_get, deref.
  rewrite Hget, Hline. by destruct (Status_eqb_spec (status r) Status.active).
Qed.

Lemma suspend_accepted :
  status r = Status.active →
  suspendCreditLine id ts s =
    (Ok l, with_heap (alter (transition Status.suspended Action.suspended ts)
                        l (heap s)) s).
Proof.
  intros H. unfold suspendCreditLine, bind, store_get, deref, mutate, ret.
  rewrite Hget, Hline, H. cbn [Status.eqb negb heap _store].
  by rewrite mutate_thrice.
Qed.

Lemma close_rejected :
  status r = Status.closed →
  closeCreditLine id ts s =
    (Throw (InvalidTransitionError Status.closed "close"), s).
Proof.
  intros H. unfold closeCreditLine, bind, store_get, deref.
  by rewrite Hget, Hline, H.
Qed.

Lemma close_accepted :
  status r ≠ Status.closed →
  closeCreditLine id ts s =
    (Ok l, with_heap (alter (transition Status.closed Action.closed ts)
                        l (heap s)) s).
Proof.
  intros H. unfold closeCreditLine, bind, store_get, deref, mutate, ret.
  rewrite Hget, Hline.
  destruct (Status_eqb_spec (status r) Status.closed); [done|].
  cbn [heap _store]. by rewrite mutate_thrice.
Qed.
End TransitionEffects.

Lemma exec_effect o s : effect s o (exec o s).1 (exec o s).2.
Proof.
  destruct o as [id st ts|id ts|id ts]; cbn [exec].
  - rewrite create_effect. constructor.
  - destruct (Map_get id (_store s)) as [l|] eqn:Hg.
    2:{ rewrite suspend_absent by done. by constructor. }
    destruct (heap s !! l) as [r|] eqn:Hl.
    2:{ erewrite suspend_dangling by done. by econstructor. }
    destruct (Status_eqb_spec (status r) Status.active) as [Ha|Ha].
    + erewrite suspend_accepted by done. by econstructor.
    + erewrite suspend_rejected by done. by constructor.
  - destruct (Map_get id (_store s)) as [l|] eqn:Hg.
    2:{ rewrite close_absent by done. by constructor. }
    destruct (heap s !! l) as [r|] eqn:Hl.
    2:{ erewrite close_dangling by done. by econstructor. }
    destruct (Status_eqb_spec (status r) Status.closed) as [Ha|Ha].
    + erewrite close_rejected by done. by constructor.
    + erewrite close_accepted by done. by econstructor.
Qed.

(** ** Well-formed states *)

Lemma fresh_line_ok id st ts : line_ok (fresh_line id st ts).
Proof. by split. Qed.

Lemma transition_ok st a ts c : line_ok c → line_ok (transition st a ts c).
Proof.
  intros [Hf Hc Hu]. split; simpl.
  - destruct (events c); [done|]. exact Hf.
  - destruct (events c); [done|]. exact Hc.
  - by rewrite last_snoc.
Qed.

Lemma Map_values_live l s :
  wf s → l ∈ Map_values (_store s) → l < length (heap s).
Proof.
  intros Hwf Hin.
  by apply (proj1 (Forall_forall (λ l, l < length (heap s)) _) (wf_live _ Hwf)).
Qed.

Lemma Map_get_live k l s :
  wf s → Map_get k (_store s) = Some l → l < length (heap s).
Proof.
  intros Hwf Hg. apply Map_get_Some_elem in Hg.
  apply Map_values_live; [done|].
  apply list_elem_of_fmap. by exists (k, l).
Qed.

Lemma wf_init : wf init.
Proof. split; simpl; try constructor. done. Qed.

Lemma effect_wf s o res s' : effect s o res s' → wf s → wf s'.
Proof.
  intros Heff Hwf. destruct Heff as [id st ts| | |id ts l r Hg Hl Hs|id ts l r Hg Hl Hs];
    try done.
  - (* create *)
    assert (length (heap s) ∉ Map_values (_store s)) as Hfresh.
    { intros Hin%Map_values_live; [lia | done]. }
    split; cbn [heap _store].
    + apply Forall_forall. intros v [->|Hv]%Map_values_set_elem;
        rewrite length_app; simpl; [lia|].
      apply Map_values_live in Hv; [lia | done].
    + apply Map_keys_set_NoDup, Hwf.
    + apply Map_values_set_NoDup; [done | apply Hwf].
    + intros k l r. destruct (decide (id = k)) as [->|Hne].
      * rewrite Map_get_set_eq. intros [= <-].
        rewrite lookup_app_r, Nat.sub_diag by lia. by intros [= <-].
      * rewrite Map_get_set_ne by done. intros Hg Hl.
        pose proof (Map_get_live _ _ _ Hwf Hg).
        rewrite lookup_app_l in Hl by done. by eapply wf_ids.
    + apply Forall_app_2; [apply Hwf|]. repeat constructor; by simpl.
  - (* suspend *)
    split; cbn [with_heap heap _store]; rewrite ?length_alter; try apply Hwf.
    + intros k l' r'. rewrite list_lookup_alter. case_decide as E.
      * subst l'. rewrite Hl. intros Hk [= <-]. simpl. by eapply wf_ids.
      * by apply wf_ids.
    + apply Forall_alter; [apply Hwf|]. intros; by apply transition_ok.
  - (* close *)
    split; cbn [with_heap heap _store]; rewrite ?length_alter; try apply Hwf.
    + intros k l' r'. rewrite list_lookup_alter. case_decide as E.
      * subst l'. rewrite Hl. intros Hk [= <-]. simpl. by eapply wf_ids.
      * by apply wf_ids.
    + apply Forall_alter; [apply Hwf|]. intros; by apply transition_ok.
Qed.

Lemma step_wf o s : wf s → wf (step o s).
Proof. apply effect_wf with (o := o) (res := (exec o s).1), exec_effect. Qed.

Lemma reachable_wf s : reachable s → wf s.
Proof. induction 1; [apply wf_init | by apply step_wf]. Qed.

Lemma run_reachable ops s : reachable s → reachable (run ops s).
Proof.
  revert s. induction ops as [|o ops IH]; intros s Hs; [done|].
  apply IH. by constructor.
Qed.

(** No reachable state has a dangling reference, so no call ever ends
    in [Fault]. *)
Lemma reachable_live s k l :
  reachable s → Map_get k (_store s) = Some l → is_Some (heap s !! l).
Proof.
  intros Hs Hg. apply lookup_lt_is_Some. by eapply Map_get_live, Hg; apply reachable_wf.
Qed.

Lemma reachable_no_fault o s : reachable s → (exec o s).1 ≠ Fault.
Proof.
  intros Hs. destruct (exec_effect o s) as [| |o k l Hg Hl| |]; try done.
  destruct (reachable_live _ _ _ Hs Hg) as [r Hr]. congruence.
Qed.

(** ** Further facts about runs and the map *)

(** In a well-formed map two keys never hold the same reference. *)
Lemma Map_get_inj (k k' : string) (v : ref) (m : JsMap) :
  NoDup (Map_values m) →
  Map_get k m = Some v → Map_get k' m = Some v → k = k'.
Proof.
  unfold Map_values. induction m as [|[k0 v0] m IH]; csimpl; [done|].
  rewrite NoDup_cons. intros [Hv Hnd].
  assert (∀ k1, Map_get k1 m = Some v0 → False) as Hno.
  { intros k1 Hin%Map_get_Some_elem. apply Hv, list_elem_of_fmap.
    by exists (k1, v0). }
  destruct (String.eqb k k0) eqn:E, (String.eqb k' k0) eqn:E'.
  - apply String.eqb_eq in E, E'. congruence.
  - intros [= ->] H. by destruct (Hno k').
  - intros H [= ->]. by destruct (Hno k).
  - by apply IH.
Qed.

(** One call and one object: the object stays on the heap, and its
    status stays or moves along an edge; it moves only in a suspend or
    close call. *)
Lemma step_status (o : op) (s : State) (l : ref) (r : CreditLine) :
  heap s !! l = Some r →
  ∃ r', heap (step o s) !! l = Some r' ∧
        (status r' = status r ∨
         status_edge (status r) (status r') = true ∧ is_transition o = true).
Proof.
  intros Hl. unfold step.
  destruct (exec_effect o s) as [id st ts| | |id ts l0 r0 Hg Hl0 Hs|id ts l0 r0 Hg Hl0 Hs];
    cbn [with_heap heap]; eauto.
  - exists r. split; [|by left]. by apply lookup_app_l_Some.
  - rewrite list_lookup_alter. case_decide as E.
    + subst l0. rewrite Hl. eexists; split; [done|]. right. simpl.
      assert (r0 = r) as -> by congruence. by rewrite Hs.
    + eauto.
  - rewrite list_lookup_alter. case_decide as E.
    + subst l0. rewrite Hl. eexists; split; [done|]. right. simpl.
      assert (r0 = r) as -> by congruence. by destruct (status r).
    + eauto.
Qed.

(** A suspend or close call never touches the map. *)
Lemma transition_keeps_store (o : op) (s : State) :
  is_transition o = true → _store (step o s) = _store s.
Proof.
  intros Ho. unfold step. by destruct (exec_effect o s).
Qed.

(** Over any number of calls a status only moves forward. *)
Lemma run_status (ops : list op) (s : State) (l : ref) (r : CreditLine) :
  heap s !! l = Some r →
  ∃ r', heap (run ops s) !! l = Some r' ∧
        (status r = Status.suspended → status r' ≠ Status.active) ∧
        (status r = Status.closed → status r' = Status.closed).
Proof.
  revert s r. induction ops as [|o ops IH]; intros s r Hl.
  - exists r. split_and!; [done | congruence | done].
  - destruct (step_status o s l r Hl) as (r1 & Hl1 & Hst).
    destruct (IH _ _ Hl1) as (r' & Hl' & Hsusp & Hclosed).
    exists r'. split; [exact Hl'|].
    destruct Hst as [Heq|[Hedge _]].
    + rewrite <-Heq. by split.
    + destruct (status r) eqn:E, (status r1) eqn:E1; try done.
      split; [|done]. intros _. rewrite Hclosed; done.
Qed.

Lemma Map_values_get (m : JsMap) (l : ref) :
  NoDup (Map_keys m) → l ∈ Map_values m ↔ ∃ k, Map_get k m = Some l.
Proof.
  intros Hnd. unfold Map_values. rewrite list_elem_of_fmap. split.
  - intros ([k l'] & -> & Hin). exists k. by apply Map_get_elem.
  - intros [k Hg%Map_get_Some_elem]. by exists (k, l).
Qed.

Lemma Map_keys_values (m : JsMap) :
  NoDup (Map_keys m) →
  Forall2 (λ k l, Map_get k m = Some l) (Map_keys m) (Map_values m).
Proof.
  intros Hnd. apply Forall2_fmap_2, Forall_Forall2_diag, Forall_forall.
  intros [k l] Hin. by apply Map_get_elem.
Qed.

Lemma create_all_cons (c : create_call) (cs : list create_call) (s : State) :
  create_all (c :: cs) s =
    let s1 := {| heap := heap s ++ [fresh_line c.1.1 c.1.2 c.2];
                 _store := Map_set c.1.1 (length (heap s)) (_store s) |} in
    match create_all cs s1 with
    | (Ok lines, s') => (Ok (length (heap s) :: lines), s')
    | (Throw e, s') => (Throw e, s')
    | (Fault, s') => (Fault, s')
    end.
Proof.
  destruct c as [[id st] ts]. cbn [create_all fst snd]. unfold bind at 1.
  rewrite create_effect. unfold bind, ret.
  by destruct (create_all cs _) as [[]].
Qed.

(** The keys after a run of creates: those before, then the new ids in
    the order they first occur. *)
Lemma create_all_keys (cs : list create_call) (s : State) :
  ∃ created s',
    create_all cs s = (Ok created, s') ∧
    Map_keys (_store s') =
      first_occurrences (Map_keys (_store s)) (call_id <$> cs).
Proof.
  revert s. induction cs as [|c cs IH]; intros s.
  - by exists [], s.
  - rewrite create_all_cons. cbv zeta.
    edestruct IH as (created & s' & -> & Hk). eexists _, s'. split; [done|].
    rewrite Hk. cbn [_store]. rewrite Map_keys_set. csimpl. unfold call_id.
    destruct (Map_get c.1.1 (_store s)) eqn:Hg.
    + rewrite bool_decide_true; [done|].
      destruct (decide (c.1.1 ∈ Map_keys (_store s))) as [|Hn]; [done|].
      apply Map_get_None_keys in Hn. congruence.
    + rewrite bool_decide_false; [done|]. by apply Map_get_None_keys.
Qed.

(** With pairwise distinct new ids, the values after a run of creates:
    those before, then the created references in the order of the
    calls. *)
Lemma create_all_values (cs : list create_call) (s : State) :
  NoDup (call_id <$> cs) →
  (∀ k, k ∈ call_id <$> cs → k ∉ Map_keys (_store s)) →
  ∃ created s',
    create_all cs s = (Ok created, s') ∧
    Map_values (_store s') = Map_values (_store s) ++ created.
Proof.
  revert s. induction cs as [|c cs IH]; intros s Hnd Hnew.
  - exists [], s. by rewrite app_nil_r.
  - rewrite create_all_cons. cbv zeta. csimpl in Hnd. csimpl in Hnew.
    apply NoDup_cons in Hnd as [Hc Hnd].
    assert (Map_get c.1.1 (_store s) = None) as Hg.
    { apply Map_get_None_keys, Hnew. left. }
    edestruct IH as (created & s' & -> & Hv); [done| |].
    { intros k Hk. cbn [_store]. rewrite Map_keys_set, Hg.
      rewrite not_elem_of_app, not_elem_of_cons. split_and!.
      - apply Hnew. by right.
      - intros ->. by apply Hc.
      - apply not_elem_of_nil. }
    eexists _, s'. split; [done|]. rewrite Hv. cbn [_store].
    by rewrite Map_values_set_fresh, <-app_assoc.
Qed.

(** The full lifecycle: create, suspend, close. *)
Example lifecycle :
  line_of "x" (run [Create "x" None "t0"; Suspend "x" "t1"; Close "x" "t2"]
                 init)
  = Some {| id := "x"; status := Status.closed;
            createdAt := "t0"; updatedAt := "t2";
            events := [{| action := Action.created;
                          timestamp := "t0"; actor := None |};
                       {| action := Action.suspended;
                          timestamp := "t1"; actor := None |};
                       {| action := Action.closed;
                          timestamp := "t2"; actor := None |}] |}.
Proof. reflexivity. Qed.

(** A closed line takes neither action, and nothing changes. *)
Example closed_is_terminal :
  suspendCreditLine "x" "t2" one_closed
    = (Throw (InvalidTransitionError Status.closed "suspend"), one_closed) ∧
  closeCreditLine "x" "t2" one_closed
    = (Throw (InvalidTransitionError Status.closed "close"), one_closed).
Proof. split; reflexivity. Qed.

(** * The claims *)

(** C1.  [suspendCreditLine key] throws [CreditLineNotFoundError key]
    when the map has no entry for [key]; throws
    [InvalidTransitionError (current status) "suspend"] when the stored
    record is not active; and otherwise returns the stored record, now
    with status suspended, [updatedAt] set to the clock reading of the
    call, and exactly one event, a ["suspended"] one with that time,
    added after the events it had. *)
Theorem suspend_spec (key ts : string) (s : State) :
  (Map_get key (_store s) = None →
   suspendCreditLine key ts s = (Throw (CreditLineNotFoundError key), s)) ∧
  (∀ r, line_of key s = Some r → status r ≠ Status.active →
   suspendCreditLine key ts s =
     (Throw (InvalidTransitionError (status r) "suspend"), s)) ∧
  (∀ r, line_of key s = Some r → status r = Status.active →
   ∃ l s',
     suspendCreditLine key ts s = (Ok l, s') ∧
     getCreditLine key s' = (Ok (Some l), s') ∧
     heap s' !! l =
       Some {| id := id r; status := Status.suspended;
               createdAt := createdAt r; updatedAt := ts;
               events := events r ++ [{| action := Action.suspended;
                                         timestamp := ts; actor := None |}] |}).
Proof.
  split_and!.
  - apply suspend_absent.
  - unfold line_of. intros r Hr Hs.
    destruct (Map_get key (_store s)) as [l|] eqn:Hg; [|done].
    by eapply suspend_rejected.
  - unfold line_of. intros r Hr Hs.
    destruct (Map_get key (_store s)) as [l|] eqn:Hg; [|done]. simpl in Hr.
    eexists l, _. split_and!.
    + by eapply suspend_accepted.
    + unfold getCreditLine, store_get. simpl. by rewrite Hg.
    + simpl. by rewrite list_lookup_alter_eq, Hr.
Qed.

Lemma suspend_spec_witness :
  suspendCreditLine "ghost" "t1" init
    = (Throw (CreditLineNotFoundError "ghost"), init) ∧
  suspendCreditLine "x" "t2" one_suspended
    = (Throw (InvalidTransitionError Status.suspended "suspend"),
       one_suspended) ∧
  ∃ l s',
    suspendCreditLine "x" "t1" one_active = (Ok l, s') ∧
    getCreditLine "x" s' = (Ok (Some l), s') ∧
    heap s' !! l =
      Some {| id := "x"; status := Status.suspended;
              createdAt := "t0"; updatedAt := "t1";
              events := [{| action := Action.created;
                            timestamp := "t0"; actor := None |};
                         {| action := Action.suspended;
                            timestamp := "t1"; actor := None |}] |}.
Proof.
  split; [|split].
  - apply (proj1 (suspend_spec "ghost" "t1" init)). reflexivity.
  - apply (proj1 (proj2 (suspend_spec "x" "t2" one_suspended))
             {| id := "x"; status := Status.suspended;
                createdAt := "t0"; updatedAt := "t1";
                events := [{| action := Action.created;
                              timestamp := "t0"; actor := None |};
                           {| action := Action.suspended;
                              timestamp := "t1"; actor := None |}] |}).
    + reflexivity.
    + discriminate.
  - apply (proj2 (proj2 (suspend_spec "x" "t1" one_active))
             (fresh_line "x" None "t0")); reflexivity.
Defined.

(** C2.  [closeCreditLine key] throws [CreditLineNotFoundError key] when
    the map has no entry for [key]; throws
    [InvalidTransitionError "closed" "close"] when the stored record is
    closed; and otherwise, the record being active or suspended, returns
    the stored record, now with status closed, [updatedAt] set to the
    clock reading of the call, and exactly one event, a ["closed"] one
    with that time, added after the events it had. *)
Theorem close_spec (key ts : string) (s : State) :
  (Map_get key (_store s) = None →
   closeCreditLine key ts s = (Throw (CreditLineNotFoundError key), s)) ∧
  (∀ r, line_of key s = Some r → status r = Status.closed →
   closeCreditLine key ts s =
     (Throw (InvalidTransitionError Status.closed "close"), s)) ∧
  (∀ r, line_of key s = Some r →
   status r = Status.active ∨ status r = Status.suspended →
   ∃ l s',
     closeCreditLine key ts s = (Ok l, s') ∧
     getCreditLine key s' = (Ok (Some l), s') ∧
     heap s' !! l =
       Some {| id := id r; status := Status.closed;
               createdAt := createdAt r; updatedAt := ts;
               events := events r ++ [{| action := Action.closed;
                                         timestamp := ts; actor := None |}] |}).
Proof.
  split_and!.
  - apply close_absent.
  - unfold line_of. intros r Hr Hs.
    destruct (Map_get key (_store s)) as [l|] eqn:Hg; [|done].
    by eapply close_rejected.
  - unfold line_of. intros r Hr Hs.
    destruct (Map_get key (_store s)) as [l|] eqn:Hg; [|done]. simpl in Hr.
    eexists l, _. split_and!.
    + eapply close_accepted; [done..|]. destruct Hs; congruence.
    + unfold getCreditLine, store_get. simpl. by rewrite Hg.
    + simpl. by rewrite list_lookup_alter_eq, Hr.
Qed.

Lemma close_spec_witness :
  closeCreditLine "ghost" "t1" init
    = (Throw (CreditLineNotFoundError "ghost"), init) ∧
  closeCreditLine "x" "t2" one_closed
    = (Throw (InvalidTransitionError Status.closed "close"), one_closed) ∧
  ∃ l s',
    closeCreditLine "x" "t2" one_suspended = (Ok l, s') ∧
    getCreditLine "x" s' = (Ok (Some l), s') ∧
    heap s' !! l =
      Some {| id := "x"; status := Status.closed;
              createdAt := "t0"; updatedAt := "t2";
              events := [{| action := Action.created;
                            timestamp := "t0"; actor := None |};
                         {| action := Action.suspended;
                            timestamp := "t1"; actor := None |};
                         {| action := Action.closed;
                            timestamp := "t2"; actor := None |}] |}.
Proof.
  split; [|split].
  - apply (proj1 (close_spec "ghost" "t1" init)). reflexivity.
  - apply (proj1 (proj2 (close_spec "x" "t2" one_closed))
             (transition Status.closed Action.closed "t1"
                (fresh_line "x" None "t0"))); reflexivity.
  - apply (proj2 (proj2 (close_spec "x" "t2" one_suspended))
             (transition Status.suspended Action.suspended "t1"
                (fresh_line "x" None "t0"))).
    + reflexivity.
    + right. reflexivity.
Defined.

(** C3.  When [suspendCreditLine] or [closeCreditLine] throws, whichever
    of the two errors it is, the state after the call is the state
    before it: same heap, so every record keeps its status, [updatedAt]
    and events, and same map. *)
Theorem error_atomicity (key ts : string) (s s' : State) (e : ServiceError) :
  suspendCreditLine key ts s = (Throw e, s') ∨
  closeCreditLine key ts s = (Throw e, s') →
  s' = s.
Proof.
  intros [H|H].
  - pose proof (exec_effect (Suspend key ts) s) as Heff.
    cbn [exec] in Heff. rewrite H in Heff. by inversion Heff.
  - pose proof (exec_effect (Close key ts) s) as Heff.
    cbn [exec] in Heff. rewrite H in Heff. by inversion Heff.
Qed.

Lemma error_atomicity_witness :
  (suspendCreditLine "x" "t2" one_suspended).1
    = Throw (InvalidTransitionError Status.suspended "suspend") ∧
  (suspendCreditLine "x" "t2" one_suspended).2 = one_suspended.
Proof.
  split; [reflexivity|].
  apply (error_atomicity "x" "t2" one_suspended _
           (InvalidTransitionError Status.suspended "suspend")).
  left. reflexivity.
Defined.

(** C4.  In every state the module can reach, whatever call comes next,
    every record stays where it is and its status either stays or moves
    along one of the three edges active to suspended, active to closed,
    suspended to closed, and it moves only in a suspend or close call.
    Over any further sequence of calls a suspended record is never
    active again and a closed record stays closed.  A suspend or close
    call leaves the record under every key the same object, so the same
    holds of the record read through its key. *)
Theorem status_irreversible (s : State) (l : ref) (r : CreditLine) :
  reachable s →
  heap s !! l = Some r →
  (∀ o, ∃ r',
     heap (step o s) !! l = Some r' ∧
     (status r' = status r ∨
      status_edge (status r) (status r') = true ∧ is_transition o = true)) ∧
  (∀ ops, ∃ r',
     heap (run ops s) !! l = Some r' ∧
     (status r = Status.suspended → status r' ≠ Status.active) ∧
     (status r = Status.closed → status r' = Status.closed)) ∧
  (∀ o key, is_transition o = true → Map_get key (_store s) = Some l →
     Map_get key (_store (step o s)) = Some l).
Proof.
  intros _ Hl. split_and!.
  - intros o. by apply step_status.
  - intros ops. by apply run_status.
  - intros o key Ho Hg. by rewrite transition_keeps_store.
Qed.

Lemma status_irreversible_witness :
  ∃ r', heap (run [Suspend "x" "t2"; Close "x" "t3"; Create "x" None "t4"]
                one_closed) !! 0 = Some r' ∧
        status r' = Status.closed.
Proof.
  destruct (status_irreversible one_closed 0
              (transition Status.closed Action.closed "t1"
                 (fresh_line "x" None "t0"))) as (_ & H & _).
  - apply (run_reachable _ init reachable_init).
  - reflexivity.
  - destruct (H [Suspend "x" "t2"; Close "x" "t3"; Create "x" None "t4"])
      as (r' & Hl & _ & Hc).
    exists r'. split; [exact Hl|]. apply Hc. reflexivity.
Defined.

(** C5.  [createCreditLine key] returns a reference to a new record and
    stores it under [key].  With the status argument omitted the record
    is active; with a status given it has that status.  Either way its
    event list has exactly one entry, with action ["created"]. *)
Theorem create_spec (key ts : string) (st : option Status.t) (s : State) :
  ∃ l s' r,
    createCreditLine key st ts s = (Ok l, s') ∧
    getCreditLine key s' = (Ok (Some l), s') ∧
    heap s' !! l = Some r ∧
    id r = key ∧
    status r = match st with Some v => v | None => Status.active end ∧
    length (events r) = 1 ∧
    action <$> events r = [Action.created].
Proof.
  eexists _, _, (fresh_line key st ts). rewrite create_effect.
  split_and!; try done.
  - unfold getCreditLine, store_get. simpl. by rewrite Map_get_set_eq.
  - simpl. by rewrite lookup_app_r, Nat.sub_diag.
Qed.

(** C6.  A [suspendCreditLine] or [closeCreditLine] call that returns
    rewrites exactly one record, the one stored under its key.  That
    record keeps its [id], its [createdAt] and all the events it had,
    and gets exactly one more event at the end.  No object is allocated
    or dropped, the map is as before, every other object on the heap is
    as before, and so is the record under every other key. *)
Theorem transition_frame (key ts : string) (s s' : State) (l : ref) :
  reachable s →
  suspendCreditLine key ts s = (Ok l, s') ∨
  closeCreditLine key ts s = (Ok l, s') →
  Map_get key (_store s) = Some l ∧
  _store s' = _store s ∧
  length (heap s') = length (heap s) ∧
  (∃ r r' e,
     heap s !! l = Some r ∧ heap s' !! l = Some r' ∧
     id r' = id r ∧ createdAt r' = createdAt r ∧
     events r' = events r ++ [e]) ∧
  (∀ l', l' ≠ l → heap s' !! l' = heap s !! l') ∧
  (∀ key', key' ≠ key → line_of key' s' = line_of key' s).
Proof.
  intros Hs Hcall.
  assert (∃ st a r, Map_get key (_store s) = Some l ∧ heap s !! l = Some r ∧
            s' = with_heap (alter (transition st a ts) l (heap s)) s)
    as (st & a & r & Hg & Hl & ->).
  { destruct Hcall as [H|H].
    - pose proof (exec_effect (Suspend key ts) s) as Heff.
      cbn [exec] in Heff. rewrite H in Heff. inversion Heff; subst. eauto 10.
    - pose proof (exec_effect (Close key ts) s) as Heff.
      cbn [exec] in Heff. rewrite H in Heff. inversion Heff; subst. eauto 10. }
  cbn [with_heap heap _store]. split_and!; try done.
  - apply length_alter.
  - exists r, (transition st a ts r),
      {| action := a; timestamp := ts; actor := None |}.
    split_and!; try done. by rewrite list_lookup_alter_eq, Hl.
  - intros l' Hne. by apply list_lookup_alter_ne.
  - intros key' Hne. unfold line_of. cbn [with_heap heap _store].
    destruct (Map_get key' (_store s)) as [l'|] eqn:Hg'; [|done]. simpl.
    apply list_lookup_alter_ne. intros <-. apply Hne.
    eapply Map_get_inj; [|done..]. by apply reachable_wf.
Qed.

Lemma transition_frame_witness :
  Map_get "a" (_store (run [Create "a" None "t0"; Create "b" None "t1"] init))
    = Some 0 ∧
  line_of "b" (run [Create "a" None "t0"; Create "b" None "t1";
                    Suspend "a" "t2"] init)
    = line_of "b" (run [Create "a" None "t0"; Create "b" None "t1"] init).
Proof.
  pose proof (transition_frame "a" "t2"
                (run [Create "a" None "t0"; Create "b" None "t1"] init)
                (run [Create "a" None "t0"; Create "b" None "t1";
                      Suspend "a" "t2"] init) 0) as H.
  destruct H as (Hg & _ & _ & _ & _ & Hother).
  - apply (run_reachable _ init reachable_init).
  - left. reflexivity.
  - split; [exact Hg|]. apply Hother. discriminate.
Defined.

(** C7, counterexample.  Create ["a"], then ["b"], then ["a"] again.  The
    records still present are the second and the third created, in that
    order, but [listCreditLines] returns the third one first: it sits in
    the place of the record it replaced. *)
Lemma list_order_counterexample :
  listCreditLines (run [Create "a" None "t0"; Create "b" None "t1";
                        Create "a" None "t2"] init)
    = (Ok [2; 1], run [Create "a" None "t0"; Create "b" None "t1";
                       Create "a" None "t2"] init) ∧
  ¬ lists_in_creation_order
      [("a", None, "t0"); ("b", None, "t1"); ("a", None, "t2")].
Proof.
  split; [reflexivity|].
  intros H. specialize (H _ _ eq_refl). vm_compute in H. discriminate H.
Qed.

Example still_present_after_recreate :
  ∃ s, create_all [("a", None, "t0"); ("b", None, "t1"); ("a", None, "t2")]
         init = (Ok [0; 1; 2], s) ∧
       still_present s [0; 1; 2] = [1; 2].
Proof. eexists. split; reflexivity. Qed.

(** C7, as amended.  [listCreditLines] leaves the state alone and returns
    exactly the records the map holds, one for each key, in the order of
    the keys; after a sequence of [createCreditLine] calls on the empty
    store the keys are in the order in which each id was first created;
    and when the ids of the calls are pairwise distinct the list is the
    created records in the order of the calls, so its i-th element is the
    record created i-th. *)
Theorem list_spec :
  (∀ s, reachable s →
     ∃ ls, listCreditLines s = (Ok ls, s) ∧
           (∀ l, l ∈ ls ↔ ∃ key, getCreditLine key s = (Ok (Some l), s)) ∧
           Forall2 (λ key l, Map_get key (_store s) = Some l)
                   (Map_keys (_store s)) ls) ∧
  (∀ cs, ∃ created s,
     create_all cs init = (Ok created, s) ∧
     Map_keys (_store s) = first_occurrences [] (call_id <$> cs) ∧
     (NoDup (call_id <$> cs) → listCreditLines s = (Ok created, s))).
Proof.
  split.
  - intros s Hs. pose proof (wf_keys _ (reachable_wf _ Hs)) as Hnd.
    exists (Map_values (_store s)). split_and!; [done | |].
    + intros l. rewrite Map_values_get by done.
      unfold getCreditLine, store_get. split; intros [k Hk]; exists k; congruence.
    + by apply Map_keys_values.
  - intros cs. destruct (create_all_keys cs init) as (created & s & Hrun & Hk).
    exists created, s. split_and!; [done..|]. intros Hnd.
    destruct (create_all_values cs init Hnd) as (created' & s' & Hrun' & Hv).
    { intros k _. apply not_elem_of_nil. }
    assert (created' = created ∧ s' = s) as [-> ->].
    { rewrite Hrun in Hrun'. by injection Hrun' as -> ->. }
    unfold listCreditLines, store_values. by rewrite Hv.
Qed.

Lemma list_spec_witness :
  ∃ s, create_all [("a", None, "t0"); ("b", Some Status.suspended, "t1")] init
         = (Ok [0; 1], s) ∧
       listCreditLines s = (Ok [0; 1], s).
Proof.
  destruct (proj2 list_spec [("a", None, "t0"); ("b", Some Status.suspended, "t1")])
    as (created & s & Hrun & _ & Hlist).
  assert (created = [0; 1]) as ->.
  { vm_compute in Hrun. by injection Hrun as <- _. }
  exists s. split; [exact Hrun|]. apply Hlist.
  apply (bool_decide_unpack _). vm_compute. exact I.
Defined.

(** C8.  [createCreditLine key] on a key the map already has puts a
    newly allocated record under that key: [getCreditLine key] returns
    the new reference, the record behind it has just its own
    ["created"] event and the status of this call, whatever the earlier
    record had, the key keeps its place in the map, and the earlier
    record is no longer in the map under any key. *)
Theorem create_overwrites (key ts : string) (st : option Status.t)
    (s : State) (l_old : ref) :
  reachable s →
  Map_get key (_store s) = Some l_old →
  ∃ l s',
    createCreditLine key st ts s = (Ok l, s') ∧
    getCreditLine key s' = (Ok (Some l), s') ∧
    l ≠ l_old ∧ heap s !! l = None ∧
    heap s' !! l =
      Some {| id := key;
              status := match st with Some v => v | None => Status.active end;
              createdAt := ts; updatedAt := ts;
              events := [{| action := Action.created;
                            timestamp := ts; actor := None |}] |} ∧
    Map_keys (_store s') = Map_keys (_store s) ∧
    (l_old ∉ Map_values (_store s')) ∧
    (∀ key', Map_get key' (_store s') ≠ Some l_old).
Proof.
  intros Hs Hg. pose proof (reachable_wf _ Hs) as Hwf.
  pose proof (Map_get_live _ _ _ Hwf Hg) as Hlt.
  assert (l_old ∉ Map_values (Map_set key (length (heap s)) (_store s)))
    as Hgone.
  { apply Map_values_set_drop; [apply Hwf | done | lia]. }
  exists (length (heap s)), (createCreditLine key st ts s).2.
  rewrite create_effect. cbn [fst snd heap _store]. split_and!; try done.
  - unfold getCreditLine, store_get. cbn [_store]. by rewrite Map_get_set_eq.
  - lia.
  - by apply lookup_ge_None_2.
  - by rewrite lookup_app_r, Nat.sub_diag.
  - by rewrite Map_keys_set, Hg.
  - intros key' Hg'%Map_get_Some_elem. apply Hgone.
    apply list_elem_of_fmap. by exists (key', l_old).
Qed.

Lemma create_overwrites_witness :
  ∃ l s',
    createCreditLine "x" None "t2" one_closed = (Ok l, s') ∧
    getCreditLine "x" s' = (Ok (Some l), s') ∧
    l ≠ 0 ∧
    heap s' !! l = Some (fresh_line "x" None "t2") ∧
    0 ∉ Map_values (_store s').
Proof.
  destruct (create_overwrites "x" "t2" None one_closed 0)
    as (l & s' & H1 & H2 & H3 & _ & H5 & _ & H7 & _).
  - apply (run_reachable _ init reachable_init).
  - reflexivity.
  - exists l, s'. by split_and!.
Defined.

(** C9.  Two [suspendCreditLine] calls issued together on a key whose
    record is active and has only its creation event: in either order of
    execution exactly one call returns, the other throws
    [InvalidTransitionError "suspended" "suspend"], and the record ends
    suspended with exactly two events. *)
Theorem concurrent_suspend (key tsa tsb : string) (s : State)
    (r : CreditLine) (first_a : bool) :
  line_of key s = Some r →
  status r = Status.active →
  length (events r) = 1 →
  ∃ ra rb s' l r',
    both first_a (suspendCreditLine key tsa) (suspendCreditLine key tsb) s
      = (ra, rb, s') ∧
    (ra = Ok l ∧
     rb = Throw (InvalidTransitionError Status.suspended "suspend") ∨
     ra = Throw (InvalidTransitionError Status.suspended "suspend") ∧
     rb = Ok l) ∧
    getCreditLine key s' = (Ok (Some l), s') ∧
    heap s' !! l = Some r' ∧
    status r' = Status.suspended ∧
    length (events r') = 2.
Proof.
  unfold line_of. intros Hr Hs Hev.
  destruct (Map_get key (_store s)) as [l|] eqn:Hg; [|done]. simpl in Hr.
  assert (∀ ts, heap (with_heap (alter (transition Status.suspended
              Action.suspended ts) l (heap s)) s) !! l
            = Some (transition Status.suspended Action.suspended ts r)) as Hl'.
  { intros ts. simpl. by rewrite list_lookup_alter_eq, Hr. }
  destruct first_a; unfold both.
  - rewrite (suspend_accepted key tsa s l Hg r Hr Hs).
    erewrite suspend_rejected; [|done|apply Hl'|done].
    eexists _, _, _, l, _. split_and!; [done | by left | | apply Hl' | done |].
    + unfold getCreditLine, store_get. simpl. by rewrite Hg.
    + simpl. rewrite length_app, Hev. done.
  - rewrite (suspend_accepted key tsb s l Hg r Hr Hs).
    erewrite suspend_rejected; [|done|apply Hl'|done].
    eexists _, _, _, l, _. split_and!; [done | by right | | apply Hl' | done |].
    + unfold getCreditLine, store_get. simpl. by rewrite Hg.
    + simpl. rewrite length_app, Hev. done.
Qed.

Lemma concurrent_suspend_witness :
  ∃ ra rb s' l r',
    both false (suspendCreditLine "x" "t1") (suspendCreditLine "x" "t2")
      one_active = (ra, rb, s') ∧
    (ra = Ok l ∧
     rb = Throw (InvalidTransitionError Status.suspended "suspend") ∨
     ra = Throw (InvalidTransitionError Status.suspended "suspend") ∧
     rb = Ok l) ∧
    getCreditLine "x" s' = (Ok (Some l), s') ∧
    heap s' !! l = Some r' ∧
    status r' = Status.suspended ∧
    length (events r') = 2.
Proof.
  apply (concurrent_suspend "x" "t1" "t2" one_active
           (fresh_line "x" None "t0") false); reflexivity.
Defined.

(** C10.  Every record stored in a reachable state has [updatedAt] equal
    to the time of its last event and [createdAt] equal to the time of
    its first event, which is the ["created"] one.  Right after
    [createCreditLine], [createdAt], [updatedAt] and the time of event 0
    are all the clock reading of that call. *)
Theorem timestamps_invariant :
  (∀ s key l, reachable s → Map_get key (_store s) = Some l →
     ∃ r, heap s !! l = Some r ∧
          timestamp <$> last (events r) = Some (updatedAt r) ∧
          timestamp <$> head (events r) = Some (createdAt r) ∧
          action <$> head (events r) = Some Action.created) ∧
  (∀ s key st ts,
     ∃ l r, (createCreditLine key st ts s).1 = Ok l ∧
            heap (createCreditLine key st ts s).2 !! l = Some r ∧
            createdAt r = ts ∧ updatedAt r = ts ∧
            timestamp <$> events r !! 0 = Some ts ∧
            createdAt r = updatedAt r).
Proof.
  split.
  - intros s key l Hs Hg.
    destruct (reachable_live _ _ _ Hs Hg) as [r Hr]. exists r.
    pose proof (Forall_lookup_1 _ _ _ _ (wf_lines _ (reachable_wf _ Hs)) Hr)
      as [Hf Hc Hu].
    by split_and!.
  - intros s key st ts. exists (length (heap s)), (fresh_line key st ts).
    rewrite create_effect. split_and!; try done.
    simpl. by rewrite lookup_app_r, Nat.sub_diag.
Qed.

Lemma timestamps_invariant_witness :
  ∃ r, heap one_suspended !! 0 = Some r ∧
       timestamp <$> last (events r) = Some (updatedAt r) ∧
       timestamp <$> head (events r) = Some (createdAt r) ∧
       action <$> head (events r) = Some Action.created.
Proof.
  apply (proj1 timestamps_invariant one_suspended "x" 0).
  - apply (run_reachable _ init reachable_init).
  - reflexivity.
Defined.

(** * Further properties of the registry *)

(** One call and one object: the object keeps its [id] and [createdAt],
    and its events are kept, with at most one more at the end. *)
Lemma step_events (o : op) (s : State) (l : ref) (r : CreditLine) :
  heap s !! l = Some r →
  ∃ r', heap (step o s) !! l = Some r' ∧
        id r' = id r ∧ createdAt r' = createdAt r ∧
        events r `prefix_of` events r'.
Proof.
  intros Hl. unfold step.
  destruct (exec_effect o s) as [k st ts| | |k ts l0 r0 Hg Hl0 Hs|k ts l0 r0 Hg Hl0 Hs];
    cbn [with_heap heap]; eauto.
  - exists r. split; [|done]. by apply lookup_app_l_Some.
  - rewrite list_lookup_alter. case_decide as E; [|eauto].
    subst l0. rewrite Hl. eexists; split; [done|]. simpl.
    split_and!; try done; by apply prefix_app_r.
  - rewrite list_lookup_alter. case_decide as E; [|eauto].
    subst l0. rewrite Hl. eexists; split; [done|]. simpl.
    split_and!; try done; by apply prefix_app_r.
Qed.

(** X1.  The event log of a record is append-only, and [id] and
    [createdAt] are never written again: after any sequence of create,
    suspend and close calls a record that existed before is still
    there, with the same [id] and [createdAt], and the events it had are
    the first events it has now. *)
Theorem events_append_only (ops : list op) (s : State) (l : ref)
    (r : CreditLine) :
  heap s !! l = Some r →
  ∃ r', heap (run ops s) !! l = Some r' ∧
        id r' = id r ∧ createdAt r' = createdAt r ∧
        events r `prefix_of` events r'.
Proof.
  revert s r. induction ops as [|o ops IH]; intros s r Hl.
  - by exists r.
  - destruct (step_events o s l r Hl) as (r1 & Hl1 & Hid1 & Hc1 & Hp1).
    destruct (IH _ _ Hl1) as (r' & Hl' & Hid & Hc & Hp).
    exists r'. split_and!; [done | congruence | congruence |].
    by etrans.
Qed.

Lemma events_append_only_witness :
  ∃ r', heap (run [Suspend "x" "t1"; Create "x" None "t2"; Close "x" "t3"]
                one_active) !! 0 = Some r' ∧
        id r' = "x" ∧ createdAt r' = "t0" ∧
        [{| action := Action.created; timestamp := "t0"; actor := None |}]
          `prefix_of` events r'.
Proof.
  apply (events_append_only
           [Suspend "x" "t1"; Create "x" None "t2"; Close "x" "t3"]
           one_active 0 (fresh_line "x" None "t0")).
  reflexivity.
Defined.

Lemma fresh_line_history id st ts : history_ok (fresh_line id st ts).
Proof. by unfold history_ok. Qed.

Lemma suspend_history ts c :
  history_ok c → status c = Status.active →
  history_ok (transition Status.suspended Action.suspended ts c).
Proof.
  unfold history_ok. simpl. rewrite fmap_app. simpl. intros H Hs.
  destruct (action <$> events c) as [|[] [|[] [|[] [|]]]]; simpl in *;
    congruence.
Qed.

Lemma close_history ts c :
  history_ok c → status c ≠ Status.closed →
  history_ok (transition Status.closed Action.closed ts c).
Proof.
  unfold history_ok. simpl. rewrite fmap_app. simpl. intros H Hs.
  destruct (action <$> events c) as [|[] [|[] [|[] [|]]]]; simpl in *;
    congruence.
Qed.

Lemma effect_history s o res s' :
  effect s o res s' → Forall history_ok (heap s) → Forall history_ok (heap s').
Proof.
  intros Heff Hh.
  destruct Heff as [k st ts| | |k ts l r Hg Hl Hs|k ts l r Hg Hl Hs];
    cbn [with_heap heap]; try done.
  - apply Forall_app_2; [done|]. constructor; [|constructor].
    apply fresh_line_history.
  - apply Forall_alter; [done|]. intros x Hx Hok.
    apply suspend_history; [done|]. congruence.
  - apply Forall_alter; [done|]. intros x Hx Hok.
    apply close_history; [done|]. congruence.
Qed.

Lemma reachable_history s : reachable s → Forall history_ok (heap s).
Proof.
  induction 1 as [|o s Hs IH]; [constructor|].
  by eapply effect_history, IH; apply exec_effect.
Qed.

(** X2.  In every reachable state every record has one of four event
    histories: created; created, suspended; created, closed; created,
    suspended, closed.  So it has at most three events, and once it has
    more than one its status is the one its last event names. *)
Theorem history_shape (s : State) (l : ref) (r : CreditLine) :
  reachable s →
  heap s !! l = Some r →
  (action <$> events r = [Action.created] ∨
   action <$> events r = [Action.created; Action.suspended]
     ∧ status r = Status.suspended ∨
   action <$> events r = [Action.created; Action.closed]
     ∧ status r = Status.closed ∨
   action <$> events r = [Action.created; Action.suspended; Action.closed]
     ∧ status r = Status.closed) ∧
  (1 ≤ length (events r) ≤ 3)%nat.
Proof.
  intros Hs Hl.
  pose proof (Forall_lookup_1 _ _ _ _ (reachable_history _ Hs) Hl) as Hok.
  unfold history_ok in Hok.
  rewrite <-(length_fmap action (events r)).
  destruct (action <$> events r) as [|[] [|[] [|[] [|]]]]; try done;
    simpl; split; try lia; tauto.
Qed.

Lemma history_shape_witness :
  (action <$> events (transition Status.suspended Action.suspended "t1"
                        (fresh_line "x" None "t0")) = [Action.created] ∨
   action <$> events (transition Status.suspended Action.suspended "t1"
                        (fresh_line "x" None "t0"))
     = [Action.created; Action.suspended]
     ∧ Status.suspended = Status.suspended ∨
   action <$> events (transition Status.suspended Action.suspended "t1"
                        (fresh_line "x" None "t0"))
     = [Action.created; Action.closed]
     ∧ Status.suspended = Status.closed ∨
   action <$> events (transition Status.suspended Action.suspended "t1"
                        (fresh_line "x" None "t0"))
     = [Action.created; Action.suspended; Action.closed]
     ∧ Status.suspended = Status.closed) ∧
  (1 ≤ 2 ≤ 3)%nat.
Proof.
  apply (history_shape one_suspended 0
           (transition Status.suspended Action.suspended "t1"
              (fresh_line "x" None "t0"))).
  - apply (run_reachable _ init reachable_init).
  - reflexivity.
Defined.

(** X3.  In every reachable state the record [getCreditLine key] returns
    is live and has [key] as its [id]. *)
Theorem stored_under_own_id (s : State) (key : string) (l : ref) :
  reachable s →
  getCreditLine key s = (Ok (Some l), s) →
  ∃ r, heap s !! l = Some r ∧ id r = key.
Proof.
  intros Hs Hget. unfold getCreditLine, store_get in Hget.
  assert (Map_get key (_store s) = Some l) as Hg by congruence.
  destruct (reachable_live _ _ _ Hs Hg) as [r Hr].
  exists r. split; [done|]. by eapply wf_ids; [apply reachable_wf|..].
Qed.

Lemma stored_under_own_id_witness :
  ∃ r, heap (run [Create "a" None "t0"; Create "b" None "t1";
                  Close "b" "t2"] init) !! 1 = Some r ∧ id r = "b".
Proof.
  apply (stored_under_own_id
           (run [Create "a" None "t0"; Create "b" None "t1"; Close "b" "t2"]
              init) "b" 1).
  - apply (run_reachable _ init reachable_init).
  - reflexivity.
Defined.

(** X4.  In every reachable state [listCreditLines] returns pairwise
    distinct references, as many as the map has keys, each of them to a
    record on the heap. *)
Theorem list_distinct (s : State) :
  reachable s →
  ∃ ls, listCreditLines s = (Ok ls, s) ∧
        NoDup ls ∧
        length ls = length (Map_keys (_store s)) ∧
        ∀ l, l ∈ ls → is_Some (heap s !! l).
Proof.
  intros Hs. pose proof (reachable_wf _ Hs) as Hwf.
  exists (Map_values (_store s)). split_and!.
  - done.
  - apply Hwf.
  - unfold Map_values, Map_keys. by rewrite !length_fmap.
  - intros l Hl. apply lookup_lt_is_Some. by apply Map_values_live.
Qed.

Lemma list_distinct_witness :
  ∃ ls, listCreditLines (run [Create "a" None "t0"; Create "b" None "t1";
                              Create "a" None "t2"] init)
          = (Ok ls, run [Create "a" None "t0"; Create "b" None "t1";
                         Create "a" None "t2"] init) ∧
        NoDup ls ∧ length ls = 2.
Proof.
  destruct (list_distinct (run [Create "a" None "t0"; Create "b" None "t1";
                                Create "a" None "t2"] init))
    as (ls & H1 & H2 & H3 & _).
  - apply (run_reachable _ init reachable_init).
  - exists ls. split_and!; [exact H1 | exact H2 | exact H3].
Defined.

(** X5.  [createCreditLine key] touches nothing that was there: every
    object on the heap is as before, one object is added, and in a
    reachable state the record under every other key is as before. *)
Theorem create_frame (key ts : string) (st : option Status.t)
    (s s' : State) (l : ref) :
  reachable s →
  createCreditLine key st ts s = (Ok l, s') →
  length (heap s') = S (length (heap s)) ∧
  (∀ l0 r, heap s !! l0 = Some r → heap s' !! l0 = Some r) ∧
  (∀ key', key' ≠ key → line_of key' s' = line_of key' s).
Proof.
  intros Hs. rewrite create_effect. intros [= <- <-]. cbn [heap _store].
  split_and!.
  - rewrite length_app. simpl. lia.
  - intros l0 r. apply lookup_app_l_Some.
  - intros key' Hne. unfold line_of. cbn [heap _store].
    rewrite Map_get_set_ne by done.
    destruct (Map_get key' (_store s)) as [l'|] eqn:Hg; [|done]. simpl.
    apply lookup_app_l. eapply Map_get_live; [|done]. by apply reachable_wf.
Qed.

Lemma create_frame_witness :
  line_of "x" (run [Create "x" None "t0"; Suspend "x" "t1";
                    Create "y" None "t2"] init)
    = line_of "x" one_suspended.
Proof.
  destruct (create_frame "y" "t2" None one_suspended
              (run [Create "x" None "t0"; Suspend "x" "t1";
                    Create "y" None "t2"] init) 1) as (_ & _ & H).
  - apply (run_reachable _ init reachable_init).
  - reflexivity.
  - apply H. discriminate.
Defined.

Lemma reset_wf s : wf s → wf (_resetStore s).2.
Proof.
  intros Hwf. split; simpl; try constructor; try done. apply Hwf.
Qed.

Lemma reachable_with_reset_wf s : reachable_with_reset s → wf s.
Proof.
  induction 1; [apply wf_init | by apply step_wf | by apply reset_wf].
Qed.

(** X6.  [_resetStore] empties the map and leaves every object alone:
    afterwards no id is found, the list is empty, suspend and close
    throw the not-found error for every id, and a record obtained
    earlier still reads as it did.  The invariants of the reachable
    states hold in the states reached with resets among the calls as
    well: live references, no key twice, no object under two keys,
    every record under its own id. *)
Theorem reset_store_spec (s : State) :
  reachable_with_reset s →
  wf s ∧
  heap (_resetStore s).2 = heap s ∧
  (∀ key ts,
     getCreditLine key (_resetStore s).2 = (Ok None, (_resetStore s).2) ∧
     suspendCreditLine key ts (_resetStore s).2
       = (Throw (CreditLineNotFoundError key), (_resetStore s).2) ∧
     closeCreditLine key ts (_resetStore s).2
       = (Throw (CreditLineNotFoundError key), (_resetStore s).2)) ∧
  listCreditLines (_resetStore s).2 = (Ok [], (_resetStore s).2).
Proof.
  intros Hs. split_and!; [by apply reachable_with_reset_wf | done | | done].
  intros key ts. split_and!; [done | by apply suspend_absent | by apply close_absent].
Qed.

Lemma reset_store_spec_witness :
  wf (run [Create "x" None "t1"] (_resetStore one_suspended).2) ∧
  suspendCreditLine "x" "t2" (_resetStore one_suspended).2
    = (Throw (CreditLineNotFoundError "x"), (_resetStore one_suspended).2).
Proof.
  split.
  - apply (reset_store_spec
             (run [Create "x" None "t1"] (_resetStore one_suspended).2)).
    apply rr_step, rr_reset, rr_step, rr_step, rr_init.
  - apply (reset_store_spec one_suspended).
    apply rr_step, rr_step, rr_init.
Defined.

Lemma run_transitions_keep_store (ops : list op) (s : State) :
  Forall (λ o, is_transition o = true) ops → _store (run ops s) = _store s.
Proof.
  revert s. induction ops as [|o ops IH]; intros s Hall; [done|].
  apply Forall_cons in Hall as [Ho Hall]. cbn [run foldl].
  change (_store (run ops (step o s)) = _store s).
  by rewrite IH, transition_keeps_store.
Qed.

(** X7.  Closed is final.  Once the record under a key is closed, then
    after any further sequence of suspend and close calls, on whatever
    keys, [suspendCreditLine] and [closeCreditLine] on that key still
    throw the invalid-transition error with current status closed, and
    change nothing. *)
Theorem closed_is_final (ops : list op) (s : State) (key ts : string)
    (r : CreditLine) :
  Forall (λ o, is_transition o = true) ops →
  line_of key s = Some r →
  status r = Status.closed →
  suspendCreditLine key ts (run ops s)
    = (Throw (InvalidTransitionError Status.closed "suspend"), run ops s) ∧
  closeCreditLine key ts (run ops s)
    = (Throw (InvalidTransitionError Status.closed "close"), run ops s).
Proof.
  unfold line_of. intros Hall Hr Hc.
  destruct (Map_get key (_store s)) as [l|] eqn:Hg; [|done]. simpl in Hr.
  destruct (run_status ops s l r Hr) as (r' & Hl' & _ & Hc').
  specialize (Hc' Hc).
  assert (Map_get key (_store (run ops s)) = Some l) as Hg'.
  { by rewrite run_transitions_keep_store. }
  split.
  - rewrite <-Hc'. eapply suspend_rejected; [done..|]. by rewrite Hc'.
  - by eapply close_rejected.
Qed.

Lemma closed_is_final_witness :
  suspendCreditLine "x" "t9"
    (run [Suspend "x" "t2"; Close "y" "t3"; Close "x" "t4"] one_closed)
    = (Throw (InvalidTransitionError Status.closed "suspend"),
       run [Suspend "x" "t2"; Close "y" "t3"; Close "x" "t4"] one_closed) ∧
  closeCreditLine "x" "t9"
    (run [Suspend "x" "t2"; Close "y" "t3"; Close "x" "t4"] one_closed)
    = (Throw (InvalidTransitionError Status.closed "close"),
       run [Suspend "x" "t2"; Close "y" "t3"; Close "x" "t4"] one_closed).
Proof.
  apply (closed_is_final [Suspend "x" "t2"; Close "y" "t3"; Close "x" "t4"]
           one_closed "x" "t9"
           (transition Status.closed Action.closed "t1"
              (fresh_line "x" None "t0"))).
  - repeat constructor.
  - reflexivity.
  - reflexivity.
Defined.

Lemma alter_fixed {A} (f : A → A) (l : list A) (i : nat) :
  (∀ x, l !! i = Some x → f x = x) → alter f i l = l.
Proof.
  intros Hf. apply list_eq. intros j. rewrite list_lookup_alter.
  case_decide as E; [|done]. subst j.
  destruct (l !! i) as [x|] eqn:Hx; [|done]. simpl. by rewrite Hf.
Qed.

(** A suspend or close call, as a function of the state: it rewrites
    the record under its key by [apply_transition], or finds no record
    and does nothing. *)
Lemma step_transition (o : op) (s : State) :
  is_transition o = true →
  step o s =
    match Map_get (op_key o) (_store s) with
    | Some l => with_heap (alter (apply_transition o) l (heap s)) s
    | None => s
    end.
Proof.
  intros Ho. unfold step.
  destruct o as [k st ts|k ts|k ts]; [done|..]; cbn [op_key exec].
  - destruct (Map_get k (_store s)) as [l|] eqn:Hg.
    2:{ by rewrite suspend_absent. }
    destruct (heap s !! l) as [r|] eqn:Hl.
    2:{ erewrite suspend_dangling by done. cbn [snd].
        rewrite alter_fixed; [by rewrite with_heap_same | congruence]. }
    destruct (Status_eqb_spec (status r) Status.active) as [Ha|Ha].
    + erewrite suspend_accepted by done. cbn [snd]. f_equal.
      apply list_alter_ext; [|done]. intros x Hx.
      assert (x = r) as -> by congruence. cbn [apply_transition].
      by destruct (Status_eqb_spec (status r) Status.active).
    + erewrite suspend_rejected by done. cbn [snd].
      rewrite alter_fixed; [by rewrite with_heap_same|]. intros x Hx.
      assert (x = r) as -> by congruence. cbn [apply_transition].
      by destruct (Status_eqb_spec (status r) Status.active).
  - destruct (Map_get k (_store s)) as [l|] eqn:Hg.
    2:{ by rewrite close_absent. }
    destruct (heap s !! l) as [r|] eqn:Hl.
    2:{ erewrite close_dangling by done. cbn [snd].
        rewrite alter_fixed; [by rewrite with_heap_same | congruence]. }
    destruct (Status_eqb_spec (status r) Status.closed) as [Ha|Ha].
    + erewrite close_rejected by done. cbn [snd].
      rewrite alter_fixed; [by rewrite with_heap_same|]. intros x Hx.
      assert (x = r) as -> by congruence. cbn [apply_transition].
      by destruct (Status_eqb_spec (status r) Status.closed).
    + erewrite close_accepted by done. cbn [snd]. f_equal.
      apply list_alter_ext; [|done]. intros x Hx.
      assert (x = r) as -> by congruence. cbn [apply_transition].
      by destruct (Status_eqb_spec (status r) Status.closed).
Qed.

(** What a suspend or close call returns or throws depends only on the
    map and on the record under its key. *)
Lemma exec_outcome_congr (o : op) (s1 s2 : State) :
  is_transition o = true →
  _store s1 = _store s2 →
  (∀ l, Map_get (op_key o) (_store s2) = Some l → heap s1 !! l = heap s2 !! l) →
  (exec o s1).1 = (exec o s2).1.
Proof.
  intros Ho Hst Hh.
  destruct o as [k st ts|k ts|k ts]; [done|..]; cbn [op_key exec] in *.
  - unfold suspendCreditLine, bind, store_get, deref, mutate, ret, throw.
    rewrite Hst. destruct (Map_get k (_store s2)) as [l|]; [|done].
    rewrite (Hh l eq_refl). destruct (heap s2 !! l) as [r|]; [|done].
    by destruct (negb _).
  - unfold closeCreditLine, bind, store_get, deref, mutate, ret, throw.
    rewrite Hst. destruct (Map_get k (_store s2)) as [l|]; [|done].
    rewrite (Hh l eq_refl). destruct (heap s2 !! l) as [r|]; [|done].
    by destruct (Status.eqb _ _).
Qed.

Lemma step_transition_other (o : op) (s : State) (l l' : ref) :
  is_transition o = true →
  Map_get (op_key o) (_store s) = Some l → l' ≠ l →
  heap (step o s) !! l' = heap s !! l'.
Proof.
  intros Ho Hg Hne. rewrite step_transition, Hg by done.
  cbn [with_heap heap]. by apply list_lookup_alter_ne.
Qed.

(** X8.  Suspend and close calls on different keys commute: in a
    reachable state, running two such calls in either order gives the
    same state, and each call returns or throws the same whether it
    runs first or second. *)
Theorem transitions_commute (o1 o2 : op) (s : State) :
  reachable s →
  is_transition o1 = true → is_transition o2 = true →
  op_key o1 ≠ op_key o2 →
  step o2 (step o1 s) = step o1 (step o2 s) ∧
  (exec o1 (step o2 s)).1 = (exec o1 s).1 ∧
  (exec o2 (step o1 s)).1 = (exec o2 s).1.
Proof.
  intros Hs H1 H2 Hne. pose proof (wf_refs _ (reachable_wf _ Hs)) as Hinj.
  assert (∀ l1 l2, Map_get (op_key o1) (_store s) = Some l1 →
                   Map_get (op_key o2) (_store s) = Some l2 → l1 ≠ l2) as Hdiff.
  { intros l1 l2 Hg1 Hg2 ->. apply Hne. by eapply Map_get_inj. }
  split_and!.
  - rewrite (step_transition o2 (step o1 s)), (step_transition o1 (step o2 s))
      by done.
    rewrite !transition_keeps_store by done.
    rewrite (step_transition o1 s), (step_transition o2 s) by done.
    destruct (Map_get (op_key o1) (_store s)) as [l1|] eqn:Hg1,
             (Map_get (op_key o2) (_store s)) as [l2|] eqn:Hg2;
      unfold with_heap; cbn [heap _store]; try done.
    f_equal. apply list_alter_alter_ne. intros E.
    by apply (Hdiff l1 l2).
  - apply exec_outcome_congr; [done | by apply transition_keeps_store |].
    intros l1 Hg1. destruct (Map_get (op_key o2) (_store s)) as [l2|] eqn:Hg2.
    + eapply step_transition_other; [done..|]. by eapply Hdiff.
    + by rewrite step_transition, Hg2.
  - apply exec_outcome_congr; [done | by apply transition_keeps_store |].
    intros l2 Hg2. destruct (Map_get (op_key o1) (_store s)) as [l1|] eqn:Hg1.
    + eapply step_transition_other; [done..|]. intros ->. by eapply Hdiff.
    + by rewrite step_transition, Hg1.
Qed.

Lemma transitions_commute_witness :
  step (Close "b" "t3")
    (step (Suspend "a" "t2")
       (run [Create "a" None "t0"; Create "b" None "t1"] init))
  = step (Suspend "a" "t2")
      (step (Close "b" "t3")
         (run [Create "a" None "t0"; Create "b" None "t1"] init)).
Proof.
  apply (transitions_commute (Suspend "a" "t2") (Close "b" "t3")
           (run [Create "a" None "t0"; Create "b" None "t1"] init)).
  - apply (run_reachable _ init reachable_init).
  - reflexivity.
  - reflexivity.
  - discriminate.
Defined.

(** X21.  The whole life of a line in two calls: on an active line a
    suspend followed by a close both return the same record, which ends
    closed with exactly the two events added, suspended then closed, each
    with the time of its call, and [updatedAt] the time of the close. *)
Theorem suspend_then_close (key ts1 ts2 : string) (s : State)
    (r : CreditLine) :
  line_of key s = Some r →
  status r = Status.active →
  ∃ l s1 s2,
    suspendCreditLine key ts1 s = (Ok l, s1) ∧
    closeCreditLine key ts2 s1 = (Ok l, s2) ∧
    line_of key s2 =
      Some {| id := id r; status := Status.closed;
              createdAt := createdAt r; updatedAt := ts2;
              events := events r ++
                [{| action := Action.suspended; timestamp := ts1;
                    actor := None |};
                 {| action := Action.closed; timestamp := ts2;
                    actor := None |}] |}.
Proof.
  unfold line_of. intros Hr Hs.
  destruct (Map_get key (_store s)) as [l|] eqn:Hg; [|done]. simpl in Hr.
  eexists l, _, _. split_and!.
  - by eapply suspend_accepted.
  - eapply close_accepted.
    + exact Hg.
    + cbn [with_heap heap]. by rewrite list_lookup_alter_eq, Hr.
    + done.
  - cbn [with_heap heap _store]. rewrite Hg. simpl.
    rewrite !list_lookup_alter_eq, Hr. simpl. unfold transition. simpl.
    by rewrite <-app_assoc.
Qed.

Lemma suspend_then_close_witness :
  ∃ l s1 s2,
    suspendCreditLine "x" "t1" one_active = (Ok l, s1) ∧
    closeCreditLine "x" "t2" s1 = (Ok l, s2) ∧
    line_of "x" s2 =
      Some {| id := "x"; status := Status.closed;
              createdAt := "t0"; updatedAt := "t2";
              events := [{| action := Action.created; timestamp := "t0";
                            actor := None |};
                         {| action := Action.suspended; timestamp := "t1";
                            actor := None |};
                         {| action := Action.closed; timestamp := "t2";
                            actor := None |}] |}.
Proof.
  apply (suspend_then_close "x" "t1" "t2" one_active
           (fresh_line "x" None "t0")); reflexivity.
Defined.

(** * The HTTP layer *)

Lemma adminAuth_cases (expectedKey : option string)
    (providedKey : header_value) :
  (adminAuth expectedKey providedKey = None ↔
   ∃ k, k ≠ EmptyString ∧ expectedKey = Some k ∧ providedKey = HeaderString k) ∧
  (∀ r, adminAuth expectedKey providedKey = Some r →
     (code r = 503 ↔ expectedKey = None ∨ expectedKey = Some EmptyString) ∧
     (code r = 503 ∨ code r = 401)).
Proof.
  unfold adminAuth. split.
  - split.
    + destruct expectedKey as [[|c k]|]; simpl; try done.
      destruct providedKey as [|[|c' v]|vs]; simpl; try done.
      destruct (Ascii.eqb_spec c' c) as [->|]; simpl; [|done].
      destruct (String.eqb_spec v k) as [->|]; simpl; [|done].
      intros _. eexists; split; [|split; reflexivity]. done.
    + intros (k & Hk & -> & ->). destruct k as [|c k]; [done|]. simpl.
      by rewrite Ascii.eqb_refl, String.eqb_refl.
  - intros r. destruct expectedKey as [[|c k]|]; simpl.
    + intros [= <-]. simpl. split; [|by left]. split; [by right|done].
    + destruct (_ || _); [|done]. intros [= <-]. simpl.
      split; [|by right]. split; [done|]. by intros [|].
    + intros [= <-]. simpl. split; [|by left]. split; [by left|done].
Qed.

(** X9.  [adminAuth] calls [next()] exactly when the server has a
    non-empty key configured and the header is a single string equal to
    it.  Otherwise it answers itself: 503 when no key or the empty key
    is configured, whatever the header, and 401 in every other case. *)
Theorem adminAuth_spec (expectedKey : option string)
    (providedKey : header_value) :
  (adminAuth expectedKey providedKey = None ↔
   ∃ k, k ≠ EmptyString ∧ expectedKey = Some k ∧ providedKey = HeaderString k) ∧
  (∀ r, adminAuth expectedKey providedKey = Some r →
     (code r = 503 ↔ expectedKey = None ∨ expectedKey = Some EmptyString) ∧
     (code r = 503 ∨ code r = 401)).
Proof. apply adminAuth_cases. Qed.

Lemma adminAuth_spec_witness :
  adminAuth (Some "secret") (HeaderString "secret") = None ∧
  adminAuth None (HeaderString "secret")
    = Some {| code := 503;
              body := ErrorBody
                "Admin authentication is not configured on this server." |}.
Proof.
  split.
  - apply (proj2 (proj1 (adminAuth_spec (Some "secret")
                           (HeaderString "secret")))).
    exists "secret". split; [discriminate|]. split; reflexivity.
  - reflexivity.
Defined.

(** X10.  A request to the suspend or close route that does not carry
    exactly the configured, non-empty key in one header gets 401 or 503
    and changes nothing: not the map and not a single record. *)
Theorem unauthorized_no_effect (expectedKey : option string)
    (providedKey : header_value) (key ts : string) (s : State) :
  ¬ (∃ k, k ≠ EmptyString ∧ expectedKey = Some k
          ∧ providedKey = HeaderString k) →
  ∃ r, (code r = 401 ∨ code r = 503) ∧
       suspend_route expectedKey providedKey key ts s = (Ok r, s) ∧
       close_route expectedKey providedKey key ts s = (Ok r, s).
Proof.
  intros Hno. unfold suspend_route, close_route, guarded.
  destruct (adminAuth expectedKey providedKey) as [r|] eqn:Hauth.
  - exists r. split; [|done].
    destruct (proj2 (adminAuth_cases _ _) r Hauth) as [_ [|]]; auto.
  - destruct Hno. by apply adminAuth_cases.
Qed.

Lemma unauthorized_no_effect_witness :
  ∃ r, (code r = 401 ∨ code r = 503) ∧
       suspend_route (Some "secret") (HeaderString "secret ") "x" "t1"
         one_active = (Ok r, one_active) ∧
       close_route (Some "secret") (HeaderString "secret ") "x" "t1"
         one_active = (Ok r, one_active).
Proof.
  apply (unauthorized_no_effect (Some "secret") (HeaderString "secret ")
           "x" "t1" one_active).
  intros (k & _ & Hk & Hh). congruence.
Defined.

Lemma adminAuth_pass (k : string) :
  k ≠ EmptyString → adminAuth (Some k) (HeaderString k) = None.
Proof. intros Hk. apply adminAuth_cases. by exists k. Qed.

(** X11.  The suspend route with the right key, in a reachable state:
    404 with the not-found message and nothing changed when the id is
    unknown; 409 with the invalid-transition message and nothing changed
    when the line is not active; 200 when it is active, with the record
    as it is stored afterwards, suspended, in the body.  It never
    answers 500. *)
Theorem suspend_route_spec (k key ts : string) (s : State) :
  reachable s →
  k ≠ EmptyString →
  ∃ resp s',
    suspend_route (Some k) (HeaderString k) key ts s = (Ok resp, s') ∧
    match line_of key s with
    | None =>
        resp = {| code := 404;
                  body := ErrorBody
                    (error_message (CreditLineNotFoundError key)) |} ∧
        s' = s
    | Some r =>
        if Status.eqb (status r) Status.active then
          resp = {| code := 200;
                    body := LineBody
                      (transition Status.suspended Action.suspended ts r)
                      (Some "Credit line suspended.") |} ∧
          line_of key s'
            = Some (transition Status.suspended Action.suspended ts r)
        else
          resp = {| code := 409;
                    body := ErrorBody
                      (error_message
                         (InvalidTransitionError (status r) "suspend")) |} ∧
          s' = s
    end.
Proof.
  intros Hs Hk. unfold suspend_route, guarded. rewrite adminAuth_pass by done.
  unfold post_suspend, try_catch, bind, line_of.
  destruct (Map_get key (_store s)) as [l|] eqn:Hg.
  2:{ rewrite suspend_absent by done. by eexists _, _. }
  destruct (reachable_live _ _ _ Hs Hg) as [r Hr]. simpl. rewrite Hr.
  destruct (Status_eqb_spec (status r) Status.active) as [Ha|Ha].
  - erewrite suspend_accepted by done. unfold deref, ret.
    cbn [with_heap heap _store]. rewrite list_lookup_alter_eq, Hr. simpl.
    eexists _, _. split; [done|]. split; [done|].
    cbn [with_heap heap _store]. rewrite Hg. simpl.
    by rewrite list_lookup_alter_eq, Hr.
  - erewrite suspend_rejected by done. by eexists _, _.
Qed.

Lemma suspend_route_spec_witness :
  ∃ resp s',
    suspend_route (Some "secret") (HeaderString "secret") "x" "t2"
      one_suspended = (Ok resp, s') ∧
    code resp = 409 ∧ s' = one_suspended.
Proof.
  destruct (suspend_route_spec "secret" "x" "t2" one_suspended)
    as (resp & s' & Hrun & Hcase).
  - apply (run_reachable _ init reachable_init).
  - discriminate.
  - exists resp, s'. split; [exact Hrun|].
    change (line_of "x" one_suspended)
      with (Some (transition Status.suspended Action.suspended "t1"
                    (fresh_line "x" None "t0"))) in Hcase.
    cbn [status transition Status.eqb] in Hcase.
    destruct Hcase as [-> ->]. split; reflexivity.
Defined.

(** X12.  The close route with the right key, in a reachable state: 404
    with the not-found message and nothing changed when the id is
    unknown; 409 with the invalid-transition message and nothing changed
    when the line is closed already; 200 otherwise, with the record as
    it is stored afterwards, closed, in the body.  It never answers
    500. *)
Theorem close_route_spec (k key ts : string) (s : State) :
  reachable s →
  k ≠ EmptyString →
  ∃ resp s',
    close_route (Some k) (HeaderString k) key ts s = (Ok resp, s') ∧
    match line_of key s with
    | None =>
        resp = {| code := 404;
                  body := ErrorBody
                    (error_message (CreditLineNotFoundError key)) |} ∧
        s' = s
    | Some r =>
        if Status.eqb (status r) Status.closed then
          resp = {| code := 409;
                    body := ErrorBody
                      (error_message
                         (InvalidTransitionError Status.closed "close")) |} ∧
          s' = s
        else
          resp = {| code := 200;
                    body := LineBody
                      (transition Status.closed Action.closed ts r)
                      (Some "Credit line closed.") |} ∧
          line_of key s'
            = Some (transition Status.closed Action.closed ts r)
    end.
Proof.
  intros Hs Hk. unfold close_route, guarded. rewrite adminAuth_pass by done.
  unfold post_close, try_catch, bind, line_of.
  destruct (Map_get key (_store s)) as [l|] eqn:Hg.
  2:{ rewrite close_absent by done. by eexists _, _. }
  destruct (reachable_live _ _ _ Hs Hg) as [r Hr]. simpl. rewrite Hr.
  destruct (Status_eqb_spec (status r) Status.closed) as [Ha|Ha].
  - erewrite close_rejected by done. by eexists _, _.
  - erewrite close_accepted by done. unfold deref, ret.
    cbn [with_heap heap _store]. rewrite list_lookup_alter_eq, Hr. simpl.
    eexists _, _. split; [done|]. split; [done|].
    cbn [with_heap heap _store]. rewrite Hg. simpl.
    by rewrite list_lookup_alter_eq, Hr.
Qed.

Lemma close_route_spec_witness :
  ∃ resp s',
    close_route (Some "secret") (HeaderString "secret") "ghost" "t2"
      one_suspended = (Ok resp, s') ∧
    code resp = 404 ∧ s' = one_suspended.
Proof.
  destruct (close_route_spec "secret" "ghost" "t2" one_suspended)
    as (resp & s' & Hrun & Hcase).
  - apply (run_reachable _ init reachable_init).
  - discriminate.
  - exists resp, s'. split; [exact Hrun|].
    change (line_of "ghost" one_suspended) with (@None CreditLine) in Hcase.
    destruct Hcase as [-> ->]. split; reflexivity.
Defined.

Lemma deref_all_live (ls : list ref) (s : State) :
  Forall (λ l, is_Some (heap s !! l)) ls →
  ∃ data, deref_all ls s = (Ok data, s) ∧
          Forall2 (λ l r, heap s !! l = Some r) ls data.
Proof.
  induction 1 as [|l ls [r Hr] _ (data & Hd & Hall)].
  - exists []. by split; [|constructor].
  - exists (r :: data). cbn [deref_all]. unfold bind, deref, ret.
    rewrite Hr, Hd. by split; [|constructor].
Qed.

(** X13.  [GET /lines] in a reachable state answers 200 and changes
    nothing; its data has one entry for each key of the map, in the
    order of the keys, and the entry is the record stored under that
    key. *)
Theorem get_lines_spec (s : State) :
  reachable s →
  ∃ data,
    get_lines s = (Ok {| code := 200; body := LinesBody data |}, s) ∧
    Forall2 (λ key r, line_of key s = Some r) (Map_keys (_store s)) data.
Proof.
  intros Hs. pose proof (reachable_wf _ Hs) as Hwf.
  destruct (deref_all_live (Map_values (_store s)) s) as (data & Hd & Hall).
  { apply Forall_forall. intros l Hl. apply lookup_lt_is_Some.
    by apply Map_values_live. }
  exists data. split.
  - unfold get_lines, bind, listCreditLines, store_values. by rewrite Hd.
  - pose proof (Map_keys_values _ (wf_keys _ Hwf)) as Hkv.
    apply Forall2_same_length_lookup. split.
    + rewrite <-(Forall2_length _ _ _ Hall).
      unfold Map_keys, Map_values. by rewrite !length_fmap.
    + intros i key r Hkey Hdata.
      destruct (Forall2_lookup_l _ _ _ _ _ Hkv Hkey) as (l & Hl & Hg).
      destruct (Forall2_lookup_l _ _ _ _ _ Hall Hl) as (r' & Hr' & Hh).
      unfold line_of. rewrite Hg. simpl. congruence.
Qed.

Lemma get_lines_spec_witness :
  ∃ data,
    get_lines (run [Create "a" None "t0"; Create "b" None "t1";
                    Close "a" "t2"] init)
      = (Ok {| code := 200; body := LinesBody data |},
         run [Create "a" None "t0"; Create "b" None "t1"; Close "a" "t2"]
           init) ∧
    Forall2 (λ key r,
               line_of key (run [Create "a" None "t0"; Create "b" None "t1";
                                 Close "a" "t2"] init) = Some r)
            ["a"; "b"] data.
Proof.
  apply (get_lines_spec (run [Create "a" None "t0"; Create "b" None "t1";
                              Close "a" "t2"] init)).
  apply (run_reachable _ init reachable_init).
Defined.

(** X14.  [GET /lines/:id] in a reachable state changes nothing; it
    answers 404 with the not-found message when the map has no such id,
    and otherwise 200 with the stored record, whose [id] is the id asked
    for. *)
Theorem get_line_spec (key : string) (s : State) :
  reachable s →
  ∃ resp,
    get_line key s = (Ok resp, s) ∧
    match line_of key s with
    | None =>
        resp = {| code := 404;
                  body := ErrorBody
                    (error_message (CreditLineNotFoundError key)) |}
    | Some r =>
        resp = {| code := 200; body := LineBody r None |} ∧ id r = key
    end.
Proof.
  intros Hs. unfold get_line, bind, getCreditLine, store_get, line_of.
  destruct (Map_get key (_store s)) as [l|] eqn:Hg; [|by eexists].
  destruct (reachable_live _ _ _ Hs Hg) as [r Hr].
  unfold deref, ret. simpl. rewrite Hr. eexists. split; [done|].
  split; [done|]. by eapply wf_ids; [apply reachable_wf|..].
Qed.

Lemma get_line_spec_witness :
  ∃ resp,
    get_line "x" one_closed = (Ok resp, one_closed) ∧
    resp = {| code := 200;
              body := LineBody (transition Status.closed Action.closed "t1"
                                  (fresh_line "x" None "t0")) None |}.
Proof.
  destruct (get_line_spec "x" one_closed) as (resp & Hrun & Hcase).
  - apply (run_reachable _ init reachable_init).
  - exists resp. split; [exact Hrun|].
    change (line_of "x" one_closed)
      with (Some (transition Status.closed Action.closed "t1"
                    (fresh_line "x" None "t0"))) in Hcase.
    exact (proj1 Hcase).
Defined.

(** * The risk service *)

Lemma rmatch_times_S (r : regex) (n : nat) (s : list ascii) :
  rmatch (Times r (S n)) s =
    match rmatch r s with
    | Some s' => rmatch (Times r n) s'
    | None => None
    end.
Proof. reflexivity. Qed.

Lemma rmatch_seq_char (c : ascii) (r : regex) (s : list ascii) :
  rmatch (Seq (Char c) r) s =
    match s with
    | x :: s' => if Ascii.eqb x c then rmatch r s' else None
    | [] => None
    end.
Proof. destruct s as [|x s]; [done|]. simpl. by destruct (Ascii.eqb x c). Qed.

(** [[...]{n}] takes exactly [n] characters, all of them in the class. *)
Lemma rmatch_times_class (ranges : list (ascii * ascii)) (n : nat)
    (s s' : list ascii) :
  rmatch (Times (Class ranges) n) s = Some s' ↔
  ∃ p, s = p ++ s' ∧ length p = n ∧ Forall (λ c, in_class ranges c = true) p.
Proof.
  revert s. induction n as [|n IH]; intros s.
  - simpl. split.
    + intros [= ->]. exists []. by split_and!.
    + intros (p & -> & Hlen & _). by destruct p.
  - rewrite rmatch_times_S. simpl. split.
    + destruct s as [|x s]; [done|].
      destruct (in_class ranges x) eqn:Hx; [|done].
      intros (p & -> & Hlen & Hall)%IH. exists (x :: p).
      split_and!; [done | by simpl; f_equal | by constructor].
    + intros ([|x p] & -> & Hlen & Hall); [done|].
      apply Forall_cons in Hall as [Hx Hall]. simpl. rewrite Hx.
      apply IH. exists p. split_and!; [done | by injection Hlen | done].
Qed.

Lemma in_class_base32 (c : ascii) :
  in_class [("A", "Z"); ("2", "7")]%char c = true ↔ base32_char c.
Proof.
  unfold in_class, in_range, base32_char. cbn [existsb fst snd].
  change (nat_of_ascii "A") with 65. change (nat_of_ascii "Z") with 90.
  change (nat_of_ascii "2") with 50. change (nat_of_ascii "7") with 55.
  rewrite !orb_true_iff, !andb_true_iff, !Nat.leb_le. intuition lia.
Qed.

(** X15.  [isValidWalletAddress] accepts exactly the strings made of a
    [G] followed by 55 characters that are upper-case letters or digits
    from 2 to 7; so every address it accepts is 56 characters long. *)
Theorem wallet_address_spec (address : string) :
  (isValidWalletAddress address = true ↔
   ∃ rest, address = String "G" (string_of_list_ascii rest) ∧
           length rest = 55 ∧ Forall base32_char rest) ∧
  (isValidWalletAddress address = true → String.length address = 56).
Proof.
  assert (isValidWalletAddress address = true ↔
          ∃ rest, address = String "G" (string_of_list_ascii rest) ∧
                  length rest = 55 ∧ Forall base32_char rest) as Hiff.
  { unfold isValidWalletAddress, regex_test, wallet_regex.
    rewrite rmatch_seq_char. split.
    - destruct address as [|c rest]; [done|]. cbn [list_ascii_of_string].
      destruct (Ascii.eqb_spec c "G") as [->|]; [|done].
      destruct (rmatch _ (list_ascii_of_string rest)) as [[|]|] eqn:Hm;
        try done.
      apply (rmatch_times_class _ 55) in Hm as (p & Hp & Hlen & Hall).
      rewrite app_nil_r in Hp. intros _. exists p. split_and!; [|done|].
      + by rewrite <-Hp, string_of_list_ascii_of_string.
      + eapply Forall_impl; [done|]. intros x. by apply in_class_base32.
    - intros (rest & -> & Hlen & Hall). cbn [list_ascii_of_string].
      rewrite list_ascii_of_string_of_list_ascii, Ascii.eqb_refl.
      assert (rmatch (Times (Class [("A", "Z"); ("2", "7")]%char) 55) rest
              = Some []) as ->; [|done].
      apply rmatch_times_class. exists rest. rewrite app_nil_r.
      split_and!; [done..|]. eapply Forall_impl; [done|].
      intros x. by apply in_class_base32. }
  split; [exact Hiff|].
  intros (rest & -> & Hlen & _)%Hiff. simpl. f_equal.
  rewrite <-Hlen. clear. induction rest; simpl; congruence.
Qed.

Lemma wallet_address_spec_witness :
  isValidWalletAddress
    "GAAAAAAAAAAAAAAAAAAAAAAAAAAAAAAAAAAAAAAAAAAAAAAAAA234567"
  = true ∧
  String.length "GAAAAAAAAAAAAAAAAAAAAAAAAAAAAAAAAAAAAAAAAAAAAAAAAA234567"
  = 56.
Proof.
  split; [reflexivity|].
  apply (proj2 (wallet_address_spec
     "GAAAAAAAAAAAAAAAAAAAAAAAAAAAAAAAAAAAAAAAAAAAAAAAAA234567")).
  reflexivity.
Defined.

(** X16.  [POST /evaluate] answers 200 exactly when the body has a
    [walletAddress] that [isValidWalletAddress] accepts, and then sends
    the placeholder result: the address back, no score, no level, the
    time of the call.  In every other case it answers 400; a missing or
    empty address gets the fixed message, without a call of
    [evaluateWallet]. *)
Theorem evaluate_route_spec (walletAddress : option string) (ts : string) :
  (code (evaluate_route walletAddress ts) = 200 ↔
   ∃ a, walletAddress = Some a ∧ isValidWalletAddress a = true) ∧
  (code (evaluate_route walletAddress ts) = 200 ∨
   code (evaluate_route walletAddress ts) = 400) ∧
  (∀ a, walletAddress = Some a → isValidWalletAddress a = true →
     evaluateWallet a ts = inr {|
       walletAddress := a; score := None; riskLevel := None;
       message := "Risk evaluation placeholder â€” engine not yet integrated.";
       evaluatedAt := ts |} ∧
     body (evaluate_route walletAddress ts) = RiskBody {|
       walletAddress := a; score := None; riskLevel := None;
       message := "Risk evaluation placeholder â€” engine not yet integrated.";
       evaluatedAt := ts |}) ∧
  (walletAddress = None ∨ walletAddress = Some EmptyString →
   evaluate_route walletAddress ts
     = {| code := 400; body := ErrorBody "walletAddress is required" |}).
Proof.
  unfold evaluate_route, evaluateWallet. split_and!.
  - split.
    + destruct walletAddress as [[|c a]|]; simpl; try done.
      destruct (isValidWalletAddress (String c a)) eqn:Hv; simpl; [|done].
      intros _. by eexists.
    + intros (a & -> & Hv). destruct a as [|c a]; [done|]. simpl.
      by rewrite Hv.
  - destruct walletAddress as [[|c a]|]; simpl; auto.
    destruct (isValidWalletAddress (String c a)); simpl; auto.
  - intros a -> Hv. destruct a as [|c a]; [done|]. simpl. by rewrite Hv.
  - by intros [->| ->].
Qed.

Lemma evaluate_route_spec_witness :
  code (evaluate_route
          (Some "GAAAAAAAAAAAAAAAAAAAAAAAAAAAAAAAAAAAAAAAAAAAAAAAAA234567")
          "t0") = 200 ∧
  evaluate_route (Some "") "t0"
    = {| code := 400; body := ErrorBody "walletAddress is required" |}.
Proof.
  split.
  - apply (proj1 (evaluate_route_spec
       (Some "GAAAAAAAAAAAAAAAAAAAAAAAAAAAAAAAAAAAAAAAAAAAAAAAAA234567")
       "t0")).
    eexists. split; reflexivity.
  - apply (evaluate_route_spec (Some "") "t0"). right. reflexivity.
Defined.

Lemma js_lt_finite (q : Q) (z : Z) :
  js_lt (Finite q) (of_int z) = true ↔ (q < inject_Z z)%Q.
Proof.
  unfold js_lt, of_int. rewrite negb_true_iff.
  destruct (Qle_bool (inject_Z z) q) eqn:E.
  - apply Qle_bool_iff in E. split; [done|]. intros H.
    by apply Qlt_not_le in H.
  - split; [|done]. intros _. apply Qnot_le_lt. intros H.
    apply Qle_bool_iff in H. congruence.
Qed.

(** X17.  [scoreToRiskLevel] cuts the scores at 40 and 70: a finite
    score is low below 40, medium from 40 up to but not including 70,
    high from 70 on.  Minus infinity is low; plus infinity and NaN are
    high.  And it is monotone: when [a < b] holds, the level of [a] is
    not above the level of [b]. *)
Theorem scoreToRiskLevel_spec :
  (∀ q, (scoreToRiskLevel (Finite q) = low ↔ (q < 40)%Q) ∧
        (scoreToRiskLevel (Finite q) = medium ↔ (40 <= q)%Q ∧ (q < 70)%Q) ∧
        (scoreToRiskLevel (Finite q) = high ↔ (70 <= q)%Q)) ∧
  scoreToRiskLevel NaN = high ∧
  scoreToRiskLevel (Infinity true) = low ∧
  scoreToRiskLevel (Infinity false) = high ∧
  (∀ a b, js_lt a b = true →
     (level_rank (scoreToRiskLevel a) ≤ level_rank (scoreToRiskLevel b))%nat).
Proof.
  assert (∀ q, (scoreToRiskLevel (Finite q) = low ↔ (q < 40)%Q) ∧
        (scoreToRiskLevel (Finite q) = medium ↔ (40 <= q)%Q ∧ (q < 70)%Q) ∧
        (scoreToRiskLevel (Finite q) = high ↔ (70 <= q)%Q)) as Hfin.
  { intros q. unfold scoreToRiskLevel.
    pose proof (js_lt_finite q 40) as H40. pose proof (js_lt_finite q 70) as H70.
    change (inject_Z 40) with 40%Q in H40. change (inject_Z 70) with 70%Q in H70.
    destruct (js_lt (Finite q) (of_int 40)) eqn:E40,
             (js_lt (Finite q) (of_int 70)) eqn:E70.
    - assert (q < 40)%Q by by apply H40.
      split_and!; split; try done; intros; lra.
    - assert (q < 40)%Q by by apply H40.
      split_and!; split; try done; intros; lra.
    - assert (q < 70)%Q by by apply H70.
      assert (¬ (q < 40)%Q) by (intros ?%H40; done).
      split_and!; split; try done; intros; lra.
    - assert (¬ (q < 70)%Q) by (intros ?%H70; done).
      assert (¬ (q < 40)%Q) by (intros ?%H40; done).
      split_and!; split; try done; intros; lra. }
  split_and!; [exact Hfin | done.. |].
  intros a b Hlt.
  destruct a as [|[]|qa], b as [|[]|qb]; try done.
  1-2: change (scoreToRiskLevel (Infinity true)) with low; simpl; lia.
  - change (scoreToRiskLevel (Infinity false)) with high.
    destruct (scoreToRiskLevel (Finite qa)); simpl; lia.
  - (* two finite scores *)
    assert (qa < qb)%Q as Hq.
    { unfold js_lt in Hlt. apply negb_true_iff in Hlt.
      apply Qnot_le_lt. intros H. apply Qle_bool_iff in H. congruence. }
    destruct (Hfin qa) as (La & Ma & Ha), (Hfin qb) as (Lb & Mb & Hb).
    destruct (scoreToRiskLevel (Finite qa)) eqn:Ea,
             (scoreToRiskLevel (Finite qb)) eqn:Eb; simpl; try lia; exfalso.
    + assert (qb < 40)%Q by by apply Lb.
      assert (40 <= qa)%Q by by apply Ma. lra.
    + assert (qb < 40)%Q by by apply Lb.
      assert (70 <= qa)%Q by by apply Ha. lra.
    + assert (qb < 70)%Q by by apply Mb.
      assert (70 <= qa)%Q by by apply Ha. lra.
Qed.

Lemma scoreToRiskLevel_spec_witness :
  scoreToRiskLevel (of_int 39) = low ∧
  scoreToRiskLevel (of_int 40) = medium ∧
  scoreToRiskLevel (of_int 70) = high ∧
  (level_rank (scoreToRiskLevel (of_int 39))
   ≤ level_rank (scoreToRiskLevel (of_int 70)))%nat.
Proof.
  split; [reflexivity|]. split; [reflexivity|]. split; [reflexivity|].
  apply (proj2 (proj2 (proj2 (proj2 scoreToRiskLevel_spec)))
           (of_int 39) (of_int 70)).
  reflexivity.
Defined.

(** * The database helpers *)

Lemma string_of_list_ascii_app (a b : list ascii) :
  string_of_list_ascii (a ++ b)
  = string_of_list_ascii a +:+ string_of_list_ascii b.
Proof. induction a as [|x a IH]; simpl; [done|]. by rewrite IH. Qed.

Lemma string_length_list (f : string) :
  String.length f = length (list_ascii_of_string f).
Proof. induction f; simpl; congruence. Qed.

(** X18.  [versionFromFilename] takes the [.sql] off the end of a name
    that has it, so putting [.sql] back gives the name again and the
    version is four characters shorter; any other name is returned as
    it is. *)
Theorem versionFromFilename_spec (filename : string) :
  (endsWith filename ".sql" = true →
   versionFromFilename filename +:+ ".sql" = filename ∧
   String.length (versionFromFilename filename) + 4 = String.length filename) ∧
  (endsWith filename ".sql" = false → versionFromFilename filename = filename).
Proof.
  unfold versionFromFilename. split; intros Hends; rewrite Hends; [|done].
  cbn [negb]. unfold slice_off, endsWith in *.
  apply bool_decide_eq_true in Hends. cbn [list_ascii_of_string length] in Hends.
  set (f := list_ascii_of_string filename) in *.
  assert (4 ≤ length f)%nat as Hlen.
  { destruct (decide (4 ≤ length f)%nat); [done|].
    apply (f_equal length) in Hends. rewrite length_drop in Hends.
    simpl in Hends. lia. }
  split.
  - assert (f = take (length f - 4) f ++ list_ascii_of_string ".sql") as Hf.
    { rewrite <-(take_drop (length f - 4) f) at 1. f_equal. exact Hends. }
    apply (f_equal string_of_list_ascii) in Hf.
    rewrite string_of_list_ascii_app in Hf. unfold f in Hf at 1.
    rewrite !string_of_list_ascii_of_string in Hf. by symmetry.
  - rewrite (string_length_list filename). fold f.
    rewrite string_length_list, list_ascii_of_string_of_list_ascii.
    rewrite length_take. lia.
Qed.

Lemma versionFromFilename_spec_witness :
  versionFromFilename "001_initial_schema.sql" +:+ ".sql"
    = "001_initial_schema.sql" ∧
  versionFromFilename "notes.sql.txt" = "notes.sql.txt".
Proof.
  split.
  - apply (proj1 (versionFromFilename_spec "001_initial_schema.sql")).
    reflexivity.
  - apply (proj2 (versionFromFilename_spec "notes.sql.txt")). reflexivity.
Defined.

Example placeholders_three :
  placeholders ["a"; "b"; "c"] = "$1, $2, $3".
Proof. reflexivity. Qed.

Lemma missingTables_cases (query : DbQuery) (tables : list string) :
  (∀ err, query (tables_query tables) tables = inl err →
     missingTables query (Some tables) = inl err) ∧
  (∀ found, query (tables_query tables) tables = inr found →
     ∃ missing,
       missingTables query (Some tables) = inr missing ∧
       missing `sublist_of` tables ∧
       (∀ t, t ∈ missing ↔ t ∈ tables ∧ t ∉ found) ∧
       (missing = [] ↔ tables ⊆ found)).
Proof.
  unfold missingTables. cbv zeta.
  change (default EXPECTED_TABLES (Some tables)) with tables. split.
  - by intros err ->.
  - intros found ->. eexists. split; [done|]. split_and!.
    + apply sublist_filter.
    + intros t. by rewrite list_elem_of_filter, (comm and).
    + split.
      * intros Hnil t Ht. destruct (decide (t ∈ found)) as [|Hn]; [done|].
        assert (t ∈ filter (λ t, t ∉ found) tables) as Hin
          by by apply list_elem_of_filter.
        rewrite Hnil in Hin. by apply elem_of_nil in Hin.
      * intros Hsub. apply elem_of_nil_inv. intros t.
        rewrite list_elem_of_filter. intros [Hn Ht]. by apply Hn, Hsub.
Qed.

(** X19.  [missingTables] sends one query, with the table names as its
    values.  When the query fails it fails with the same error; when the
    query answers, it returns a sublist of the argument, order kept,
    holding exactly the tables that are not among the rows, and so
    returns the empty list exactly when every table is among the rows. *)
Theorem missingTables_spec (query : DbQuery) (tables : list string) :
  (∀ err, query (tables_query tables) tables = inl err →
     missingTables query (Some tables) = inl err) ∧
  (∀ found, query (tables_query tables) tables = inr found →
     ∃ missing,
       missingTables query (Some tables) = inr missing ∧
       missing `sublist_of` tables ∧
       (∀ t, t ∈ missing ↔ t ∈ tables ∧ t ∉ found) ∧
       (missing = [] ↔ tables ⊆ found)).
Proof. apply missingTables_cases. Qed.

Lemma missingTables_spec_witness :
  missingTables (λ _ _, inr ["events"; "borrowers"])
    (Some ["borrowers"; "credit_lines"; "events"])
  = inr ["credit_lines"].
Proof.
  destruct (proj2 (missingTables_spec (λ _ _, inr ["events"; "borrowers"])
                     ["borrowers"; "credit_lines"; "events"])
              ["events"; "borrowers"] eq_refl) as (missing & Hrun & _).
  rewrite Hrun. vm_compute in Hrun. symmetry. exact Hrun.
Defined.

(** X20.  [validateSchema] succeeds exactly when the query answers and
    each of the five expected tables is among its rows.  When the query
    answers with some of them absent it fails with [Missing tables: ]
    followed by the absent ones, in the expected order, separated by
    a comma and a space; when the query fails it fails with the same
    error. *)
Theorem validateSchema_spec (query : DbQuery) :
  (validateSchema query = inr tt ↔
   ∃ found, query (tables_query EXPECTED_TABLES) EXPECTED_TABLES = inr found ∧
            EXPECTED_TABLES ⊆ found) ∧
  (∀ found, query (tables_query EXPECTED_TABLES) EXPECTED_TABLES = inr found →
     ¬ EXPECTED_TABLES ⊆ found →
     validateSchema query
       = inl ("Missing tables: "
              +:+ join ", " (filter (λ t, t ∉ found) EXPECTED_TABLES))) ∧
  (∀ err, query (tables_query EXPECTED_TABLES) EXPECTED_TABLES = inl err →
     validateSchema query = inl err).
Proof.
  destruct (missingTables_cases query EXPECTED_TABLES) as (Herr & Hok).
  unfold validateSchema.
  change (missingTables query None)
    with (missingTables query (Some EXPECTED_TABLES)).
  split_and!.
  - split.
    + destruct (query (tables_query EXPECTED_TABLES) EXPECTED_TABLES)
        as [err|found] eqn:Hq.
      { by rewrite (Herr err). }
      destruct (Hok found eq_refl) as (missing & -> & _ & _ & Hnil).
      destruct missing as [|m missing]; simpl; [|done].
      intros _. exists found. split; [done|]. by apply Hnil.
    + intros (found & Hq & Hsub).
      destruct (Hok found Hq) as (missing & -> & _ & _ & Hnil).
      by rewrite (proj2 Hnil Hsub).
  - intros found Hq Hsub.
    destruct (Hok found Hq) as (missing & Hrun & _ & _ & Hnil).
    rewrite Hrun.
    assert (missing = filter (λ t, t ∉ found) EXPECTED_TABLES) as ->.
    { unfold missingTables in Hrun. cbv zeta in Hrun.
      change (default EXPECTED_TABLES (Some EXPECTED_TABLES))
        with EXPECTED_TABLES in Hrun.
      rewrite Hq in Hrun. by injection Hrun. }
    destruct (filter _ _) eqn:E; [|done]. destruct Hsub. by apply Hnil.
  - intros err Hq. by rewrite (Herr err Hq).
Qed.

Lemma validateSchema_spec_witness :
  validateSchema (λ _ _, inr ["events"; "transactions"; "borrowers"])
  = inl "Missing tables: credit_lines, risk_evaluations".
Proof.
  apply (proj1 (proj2 (validateSchema_spec
           (λ _ _, inr ["events"; "transactions"; "borrowers"])))
           ["events"; "transactions"; "borrowers"]).
  - reflexivity.
  - intros Hsub. specialize (Hsub "credit_lines").
    assert ("credit_lines" ∈ ["events"; "transactions"; "borrowers"]) as Hin.
    { apply Hsub. unfold EXPECTED_TABLES.
      apply elem_of_cons. right. apply elem_of_cons. by left. }
    repeat (apply elem_of_cons in Hin as [Hin|Hin]; [discriminate Hin|]).
    by apply elem_of_nil in Hin.
Defined.
